(** * binGraph: the statistical engine of [exeGraph_mpl.py]

    A shallow embedding of the numeric core of the script: [shannon_ent],
    [get_chunk], the sampling loop of [bin_ent], the block loop of
    [section_ent_line] and the two histogram rows of [bin_hist] /
    [section_byte_occurance_histogram].

    Conventions of the embedding.
    - A byte read from a file, or an entry of [section.content], is a Python
      [int]; it is a [Z] here and [is_byte] says that it lies in [0, 255].
    - Occurrence counts ([numpy] integer arrays, [Counter] values) are [nat].
    - [numpy] and Python floating point numbers are idealised as real
      numbers: [np.log] is [ln], [/] is real division, [.sum()] is a finite
      sum.  Rounding is outside the model.
    - Plotting, logging and the executable parser are not modelled; each
      function below returns the series the original hands to the plot. *)

From Stdlib Require Import String Reals Lra Lia ZArith Bool List Permutation Sorted.
From Stdlib Require DecimalString DecimalNat DecimalFacts.
Import ListNotations.

Open Scope R_scope.

(** ** Finite sums *)

Definition Rsum (l : list R) : R := fold_right Rplus 0 l.

Definition is_byte (b : Z) : Prop := (0 <= b < 256)%Z.

(** ** [numpy.unique(labels, return_counts=True)] *)

(** Insertion of a value in a strictly increasing list, keeping one copy. *)
Fixpoint insert_unique (x : Z) (vs : list Z) : list Z :=
  match vs with
  | [] => [x]
  | y :: t =>
      if (x <? y)%Z then x :: vs
      else if (x =? y)%Z then vs
      else y :: insert_unique x t
  end.

(** The sorted distinct values of [labels]. *)
Definition unique_values (labels : list Z) : list Z :=
  fold_right insert_unique [] labels.

(** The pair [(value, counts)]: the sorted distinct values and, for each, the
    number of times it occurs in [labels]. *)
Definition np_unique (labels : list Z) : list Z * list nat :=
  let value := unique_values labels in
  (value, map (count_occ Z.eq_dec labels) value).

(** ** [shannon_ent]

<<
def shannon_ent(labels, base=256):
    value,counts = np.unique(labels, return_counts=True)
    norm_counts = counts / counts.sum()
    base = e if base is None else base
    return -(norm_counts * np.log(norm_counts)/np.log(base)).sum()
>>
    Every array operation is element-wise, so on an empty array nothing is
    divided and [.sum()] is [0]: the function has no failing path. *)
Definition shannon_ent_base (labels : list Z) (base : option R) : R :=
  let '(_, counts) := np_unique labels in
  let total := list_sum counts in
  let norm_counts := map (fun c => INR c / INR total) counts in
  let base := match base with None => exp 1 | Some b => b end in
  - Rsum (map (fun p => p * ln p / ln base) norm_counts).

Definition shannon_ent (labels : list Z) : R :=
  shannon_ent_base labels (Some 256).

(** ** [statistics.median] on a two-element list

    [statistics.median(data)] sorts [data]; for an even length it returns the
    mean of the two middle elements. *)
Definition median2 (a b : R) : R := (Rmin a b + Rmax a b) / 2.

(** ** Python integer helpers *)

(** [-(-a // b)], the rounded-up quotient used for chunk and block sizes.
    [Z.div] rounds towards minus infinity, as [//] does. *)
Definition ceil_div (a b : Z) : Z := (- ((- a) / b))%Z.

(** The slice [l[a:b]] for arbitrary integers [a] and [b]: a negative index
    counts from the end, and both ends are clamped to the list. *)
Definition slice_index (len i : Z) : Z :=
  if (i <? 0)%Z then Z.max 0 (i + len) else Z.min i len.

Definition py_slice {A : Type} (l : list A) (a b : Z) : list A :=
  let len := Z.of_nat (length l) in
  let a' := slice_index len a in
  let b' := slice_index len b in
  firstn (Z.to_nat (b' - a')) (skipn (Z.to_nat a') l).

(** Outcome of a modelled function: a value, Python's [ZeroDivisionError]
    or [ValueError], or the loop budget of the model was exhausted. *)
Inductive outcome (A : Type) : Type :=
| Done (a : A)
| ZeroDivisionError
| ValueError
| OutOfFuel.
Arguments Done {A} a.
Arguments ZeroDivisionError {A}.
Arguments ValueError {A}.
Arguments OutOfFuel {A}.

(** ** Reading a binary file in chunks *)

(** An open binary file: its bytes and the read position. *)
Record file : Type := mkFile { file_bytes : list Z; file_pos : nat }.

Definition open_rb (data : list Z) : file := mkFile data 0.

(** The bytes a successful [fh.read(size)] returns, and the file after it:
    at most [size] bytes from the read position, all the remaining bytes
    when [size] is [-1]; the position moves past them. *)
Definition fh_read_bytes (fh : file) (size : Z) : list Z * file :=
  let rest := skipn (file_pos fh) (file_bytes fh) in
  let chunk := if (size <? 0)%Z then rest else firstn (Z.to_nat size) rest in
  (chunk, mkFile (file_bytes fh) (file_pos fh + length chunk)).

(** [fh.read(size)] on the buffered reader [open(binname, 'rb')] returns:
    a size below [-1] raises [ValueError] (read length must be non-negative
    or -1). *)
Definition fh_read (fh : file) (size : Z) : outcome (list Z * file) :=
  if (size <? -1)%Z then ValueError else Done (fh_read_bytes fh size).

(** <<
def get_chunk(fh, chunksize=8192):
    while True:
        chunk = fh.read(chunksize)
        if chunk:
            yield list(chunk)
        else:
            break
>>
    The generator as the list of the chunks it yields, in order, or the
    error a read raises.  [fuel] bounds the number of reads. *)
Fixpoint get_chunk (fuel : nat) (fh : file) (chunksize : Z)
  : outcome (list (list Z)) :=
  match fuel with
  | O => OutOfFuel
  | S fuel' =>
      match fh_read fh chunksize with
      | Done (chunk, fh') =>
          match chunk with
          | [] => Done []
          | _ :: _ =>
              match get_chunk fuel' fh' chunksize with
              | Done rest => Done (chunk :: rest)
              | ZeroDivisionError => ZeroDivisionError
              | ValueError => ValueError
              | OutOfFuel => OutOfFuel
              end
          end
      | ZeroDivisionError => ZeroDivisionError
      | ValueError => ValueError
      | OutOfFuel => OutOfFuel
      end
  end.

(** ** [collections.Counter] and the tracked byte groups *)

(** [Counter(data)[x]]: a missing key reads as [0]. *)
Definition Counter (data : list Z) (x : Z) : nat := count_occ Z.eq_dec data x.

(** The tracked byte groups ([ibytes]): a dict from label to a list of byte
    values, in insertion order. *)
Definition ibytes_t : Type := list (string * list Z).

(** <<
occurance = 0
for b in b_range:
    occurance += cbytes[b]
>> *)
Definition occurance_of (cbytes : Z -> nat) (b_range : list Z) : nat :=
  fold_left (fun occurance b => (occurance + cbytes b)%nat) b_range 0%nat.

(** [(float(occurance)/float(len(chunk)))*100] *)
Definition group_percentage (chunk b_range : list Z) : R :=
  INR (occurance_of (Counter chunk) b_range) / INR (length chunk) * 100.

(** [byte_ranges[label].append(v)] on the dict of series. *)
Fixpoint append_to (label : string) (v : R) (byte_ranges : list (string * list R))
  : list (string * list R) :=
  match byte_ranges with
  | [] => []
  | (k, series) :: t =>
      if String.eqb k label then (k, series ++ [v]) :: t
      else (k, series) :: append_to label v t
  end.

(** ** [bin_ent]: entropy and byte-group percentages over the whole file *)

Record ent_state : Type := mkEntState {
  prev_ent : R;
  shannon_samples : list R;
  byte_ranges : list (string * list R)
}.

(** The body of the [for chunk in get_chunk(...)] loop.
<<
real_ent = shannon_ent(chunk)
ent = statistics.median([real_ent, prev_ent])
prev_ent = real_ent
ent = real_ent
shannon_samples.append(ent)
if len(ibytes) > 0:
    cbytes = Counter(chunk)
    for label, b_range in ibytes.items():
        ...
        byte_ranges[label].append((float(occurance)/float(len(chunk)))*100)
>> *)
Definition bin_ent_step (ibytes : ibytes_t) (st : ent_state) (chunk : list Z)
  : ent_state :=
  let real_ent := shannon_ent chunk in
  let ent := median2 real_ent (prev_ent st) in
  let prev_ent' := real_ent in
  let ent := real_ent in
  let samples := shannon_samples st ++ [ent] in
  let ranges :=
    if (0 <? length ibytes)%nat then
      fold_left
        (fun br '(label, b_range) =>
           append_to label (group_percentage chunk b_range) br)
        ibytes (byte_ranges st)
    else byte_ranges st in
  mkEntState prev_ent' samples ranges.

(** The state before the first chunk. *)
Definition bin_ent_init (ibytes : ibytes_t) : ent_state :=
  mkEntState 0 []
    (if (0 <? length ibytes)%nat then map (fun kv => (fst kv, [])) ibytes
     else []).

(** The chunks [bin_ent] iterates over, for a file holding [data]. *)
Definition bin_ent_chunks (fuel : nat) (data : list Z) (chunks : Z)
  : outcome (list (list Z)) :=
  if (chunks =? 0)%Z then ZeroDivisionError
  else
    let fs := Z.of_nat (length data) in
    let chunksize := ceil_div fs chunks in
    get_chunk fuel (open_rb data) chunksize.

(** [bin_ent] up to the plot: the entropy samples and the percentage series. *)
Definition bin_ent (fuel : nat) (data : list Z) (chunks : Z) (ibytes : ibytes_t)
  : outcome (list R * list (string * list R)) :=
  match bin_ent_chunks fuel data chunks with
  | Done cs =>
      let st := fold_left (bin_ent_step ibytes) cs (bin_ent_init ibytes) in
      Done (shannon_samples st, byte_ranges st)
  | ZeroDivisionError => ZeroDivisionError
  | ValueError => ValueError
  | OutOfFuel => OutOfFuel
  end.

(** ** [section_ent_line]: entropy per block of a section *)

(** <<
while prev_end <= len(section.content):
    block_start = prev_end
    block_end = i * block_len
    real_ent = shannon_ent(section.content[ block_start : block_end ])
    ent = statistics.median([real_ent, prev_ent])
    prev_ent = real_ent
    shannon_samples.append(ent)
    prev_end = block_end+1
    i += 1
>> *)
Fixpoint section_blocks (fuel : nat) (content : list Z) (block_len : Z)
    (i prev_end : Z) (prev_ent : R) (shannon_samples : list R)
  : option (list R) :=
  match fuel with
  | O => None
  | S fuel' =>
      if (prev_end <=? Z.of_nat (length content))%Z then
        let block_start := prev_end in
        let block_end := (i * block_len)%Z in
        let real_ent := shannon_ent (py_slice content block_start block_end) in
        let ent := median2 real_ent prev_ent in
        section_blocks fuel' content block_len (i + 1) (block_end + 1)
          real_ent (shannon_samples ++ [ent])
      else Some shannon_samples
  end.

(** The samples of one section: [block_len] is computed, then the loop runs
    from [i = 1], [prev_end = 0], [prev_ent = 0]. *)
Definition section_samples (fuel : nat) (content : list Z) (block_size : Z)
  : outcome (list R) :=
  if (block_size =? 0)%Z then ZeroDivisionError
  else
    let block_len := ceil_div (Z.of_nat (length content)) block_size in
    match section_blocks fuel content block_len 1 0 0 [] with
    | Some samples => Done samples
    | None => OutOfFuel
    end.

(** [section_ent_line] over the sections of a binary, in order: one series
    per section, each with its own loop state. *)
Fixpoint section_ent_line (fuel : nat) (sections : list (list Z)) (block_size : Z)
  : outcome (list (list R)) :=
  match sections with
  | [] => Done []
  | content :: rest =>
      match section_samples fuel content block_size with
      | Done samples =>
          match section_ent_line fuel rest block_size with
          | Done others => Done (samples :: others)
          | ZeroDivisionError => ZeroDivisionError
          | ValueError => ValueError
          | OutOfFuel => OutOfFuel
          end
      | ZeroDivisionError => ZeroDivisionError
      | ValueError => ValueError
      | OutOfFuel => OutOfFuel
      end
  end.

(** ** Byte histograms *)

(** [range(a, b)] *)
Definition py_range (a b : Z) : list Z :=
  map (fun k => (a + Z.of_nat k)%Z) (seq 0 (Z.to_nat (b - a))).

(** [int(ignore_0)] *)
Definition int_of_bool (b : bool) : Z := if b then 1%Z else 0%Z.

(** <<
ordered_row = []
c = Counter(file_array)
for x in range(ignore_0, 256):
    ordered_row.append(c[x])
>> *)
Definition ordered_row (ignore_0 : bool) (file_array : list Z) : list nat :=
  map (Counter file_array) (py_range (int_of_bool ignore_0) 256).

(** [list.sort()]: ascending, by insertion. *)
Fixpoint sort_insert (x : nat) (l : list nat) : list nat :=
  match l with
  | [] => [x]
  | y :: t => if (x <=? y)%nat then x :: l else y :: sort_insert x t
  end.

Definition list_sort (l : list nat) : list nat := fold_right sort_insert [] l.

(** <<
sorted_row = []
c = Counter(file_array)
for x in range(ignore_0, 256):
    sorted_row.append(c[x])
sorted_row.sort()
sorted_row.reverse()
>> *)
Definition sorted_row (ignore_0 : bool) (file_array : list Z) : list nat :=
  rev (list_sort (map (Counter file_array) (py_range (int_of_bool ignore_0) 256))).

(** The two rows [bin_hist] draws: the value-indexed one and, when [ordered],
    the rank-ordered one. *)
Definition bin_hist (file_array : list Z) (ignore_0 ordered : bool)
  : list nat * option (list nat) :=
  (ordered_row ignore_0 file_array,
   if ordered then Some (sorted_row ignore_0 file_array) else None).

(** The rows [section_byte_occurance_histogram] draws, one pair per section;
    the loop body is the one of [bin_hist] on [section.content]. *)
Definition section_byte_occurance_histogram (sections : list (list Z))
    (ignore_0 ordered : bool) : list (list nat * option (list nat)) :=
  map (fun content => bin_hist content ignore_0 ordered) sections.

(** ** Section names and colour seeds *)

(** [str(index)] for the index [enumerate] hands out. *)
Definition py_str (index : nat) : string :=
  DecimalString.NilZero.string_of_uint (Nat.to_uint index).

(** <<
def fix_section_name(section, index):
        s_name = section.name
        if s_name == '' or s_name == None:
            s_name = 'sect_'+str(index)
        return s_name
>>
    [section.name] is [None] or a string. *)
Definition fix_section_name (name : option string) (index : nat) : string :=
  match name with
  | None => ("sect_" ++ py_str index)%string
  | Some s_name =>
      if String.eqb s_name "" then ("sect_" ++ py_str index)%string
      else s_name
  end.

(** [int(digits, base=16)] on a string of hexadecimal digits, each digit
    given by its value. *)
Definition int_base16 (digits : list Z) : Z :=
  fold_left (fun acc d => (16 * acc + d)%Z) digits 0%Z.

(** The seeds [section_colour] hands to [np.random.seed]:
<<
name_colour = int('F'+hashlib.md5(text.encode('utf-8')).hexdigest()[:4], base=16)
np.random.seed(int(name_colour))
...
if multi:
    np.random.seed(int(name_colour)-255)
>>
    [hexdigest] stands for the MD5 digest of the label, as the values of its
    hexadecimal digits; the hash itself and the generator are library code. *)
Definition name_colour (hexdigest : list Z) : Z :=
  int_base16 (15%Z :: firstn 4 hexdigest).

Definition section_colour_seeds (hexdigest : list Z) (multi : bool)
  : Z * option Z :=
  let seed := name_colour hexdigest in
  (seed, if multi then Some (seed - 255)%Z else None).

(** ** Layout and axis helpers *)

(** The arguments of [fig.add_subplot( -(-len(pebin.sections) // ncols),
    ncols, i+1 )], one triple per section, in [section_byte_occurance_histogram]. *)
Definition subplot_positions (n_sections : nat) (ncols : Z)
  : outcome (list (Z * Z * Z)) :=
  match n_sections with
  | O => Done []
  | S _ =>
      if (ncols =? 0)%Z then ZeroDivisionError
      else Done (map (fun i => (ceil_div (Z.of_nat n_sections) ncols, ncols,
                                (Z.of_nat i + 1)%Z))
                     (seq 0 n_sections))
  end.

(** [nr_chunksize = fs / chunks], the unrounded chunk size [bin_ent] uses to
    label the x axis and to place the section and entry point markers. *)
Definition nr_chunksize (fs chunks : Z) : R := IZR fs / IZR chunks.

(** * Reference descriptions

    Closed descriptions of what the loops above are expected to compute;
    the theorems below relate the loops to them. *)

(** The bytes a file handle has not read yet. *)
Definition file_rest (fh : file) : list Z :=
  skipn (file_pos fh) (file_bytes fh).

(** Number of chunks of [c] bytes needed to cover [r] bytes. *)
Definition n_chunks (r c : nat) : nat := ((r + c - 1) / c)%nat.

(** The first [n] consecutive pieces of [c] elements of a list. *)
Fixpoint chunks_of {A : Type} (n c : nat) (l : list A) : list (list A) :=
  match n with
  | O => []
  | S n' => firstn c l :: chunks_of n' c (skipn c l)
  end.

(** Lookup of a label in a dict of series. *)
Fixpoint dict_get {B : Type} (label : string) (d : list (string * B)) : option B :=
  match d with
  | [] => None
  | (k, v) :: t => if String.eqb k label then Some v else dict_get label t
  end.

(** Blocks of a section, numbered from [0]: block [k] is the one the loop
    builds with index [i = k + 1].  It starts where the previous one ended
    plus one ([0] for the first) and ends at [i * block_len]. *)
Definition block_start (block_len : Z) (k : nat) : Z :=
  match k with
  | O => 0%Z
  | S _ => (Z.of_nat k * block_len + 1)%Z
  end.

Definition block_end (block_len : Z) (k : nat) : Z :=
  ((Z.of_nat k + 1) * block_len)%Z.

(** Raw entropy of block [k]. *)
Definition block_raw (content : list Z) (block_len : Z) (k : nat) : R :=
  shannon_ent (py_slice content (block_start block_len k) (block_end block_len k)).

(** Raw entropy of the block before block [k]; [0] before the first. *)
Definition block_prev (content : list Z) (block_len : Z) (k : nat) : R :=
  match k with
  | O => 0
  | S j => block_raw content block_len j
  end.

(** The smoothed sample of block [k]. *)
Definition block_sample (content : list Z) (block_len : Z) (k : nat) : R :=
  median2 (block_raw content block_len k) (block_prev content block_len k).

(** Number of blocks of a section of [len] bytes. *)
Definition block_count (len : nat) (block_len : Z) : nat :=
  Nat.max 1 (n_chunks len (Z.to_nat block_len)).

(** The series of one section, in closed form. *)
Definition section_series (content : list Z) (block_size : Z) : list R :=
  let block_len := ceil_div (Z.of_nat (length content)) block_size in
  map (block_sample content block_len)
      (seq 0 (block_count (length content) block_len)).

(** Majorization of count rows given in descending order: [a] is majorized
    by [b] when they have the same total and every leading partial sum of
    [a] is at most the one of [b] (the mass of [a] is spread more evenly). *)
Definition majorized_by (a b : list nat) : Prop :=
  list_sum a = list_sum b /\
  forall k, (list_sum (firstn k a) <= list_sum (firstn k b))%nat.

(** A checker for the partial sums, with the sums read so far. *)
Fixpoint prefix_dominated (sa sb : nat) (a b : list nat) : bool :=
  match a, b with
  | x :: a', y :: b' =>
      (sa + x <=? sb + y)%nat && prefix_dominated (sa + x) (sb + y) a' b'
  | [], _ => true
  | _ :: _, [] => false
  end.

(** The byte-value distribution of [l1] is more uniform than that of [l2]:
    the rank-ordered histogram of [l1] (zero included) is majorized by the
    one of [l2]. *)
Definition more_uniform (l1 l2 : list Z) : Prop :=
  majorized_by (sorted_row false l1) (sorted_row false l2).

(** [c ln c] on counts, and a slope of it at [c]. *)
Definition xlnx (c : nat) : R := INR c * ln (INR c).

Definition xlnx_slope (c : nat) : R :=
  match c with
  | O => 0
  | S _ => ln (INR c) + 1
  end.

(** * Properties *)

(** ** Finite sums of reals *)

Lemma Rsum_app (l1 l2 : list R) : Rsum (l1 ++ l2) = Rsum l1 + Rsum l2.
Proof.
  induction l1 as [|a l1 IH]; simpl; [lra|]. rewrite IH. lra.
Qed.

Lemma Rsum_map_le {A : Type} (f g : A -> R) (l : list A) :
  (forall x, In x l -> f x <= g x) ->
  Rsum (map f l) <= Rsum (map g l).
Proof.
  induction l as [|a l IH]; simpl; intros H; [lra|].
  assert (f a <= g a) by (apply H; now left).
  assert (Rsum (map f l) <= Rsum (map g l)) by (apply IH; intros; apply H; now right).
  lra.
Qed.

Lemma Rsum_map_ext {A : Type} (f g : A -> R) (l : list A) :
  (forall x, In x l -> f x = g x) ->
  Rsum (map f l) = Rsum (map g l).
Proof.
  intros H. apply Rle_antisym; apply Rsum_map_le; intros x Hx;
    rewrite (H x Hx); lra.
Qed.

Lemma Rsum_map_plus {A : Type} (f g : A -> R) (l : list A) :
  Rsum (map (fun x => f x + g x) l) = Rsum (map f l) + Rsum (map g l).
Proof.
  induction l as [|a l IH]; simpl; [lra|]. rewrite IH. lra.
Qed.

Lemma Rsum_map_scal {A : Type} (c : R) (f : A -> R) (l : list A) :
  Rsum (map (fun x => c * f x) l) = c * Rsum (map f l).
Proof.
  induction l as [|a l IH]; simpl; [lra|]. rewrite IH. lra.
Qed.

Lemma Rsum_map_const {A : Type} (c : R) (l : list A) :
  Rsum (map (fun _ => c) l) = INR (length l) * c.
Proof.
  induction l as [|a l IH]; [simpl; lra|].
  change (length (a :: l)) with (S (length l)). rewrite S_INR.
  simpl. rewrite IH. lra.
Qed.

Lemma Rsum_map_INR {A : Type} (f : A -> nat) (l : list A) :
  Rsum (map (fun x => INR (f x)) l) = INR (list_sum (map f l)).
Proof.
  induction l as [|a l IH]; simpl; [reflexivity|].
  rewrite plus_INR, IH. reflexivity.
Qed.

Lemma Rsum_Permutation (l1 l2 : list R) :
  Permutation l1 l2 -> Rsum l1 = Rsum l2.
Proof.
  induction 1; simpl; lra.
Qed.

(** ** The distinct values found by [np_unique] *)

Lemma insert_unique_In (x y : Z) (vs : list Z) :
  In y (insert_unique x vs) <-> y = x \/ In y vs.
Proof.
  induction vs as [|v vs IH]; simpl.
  - intuition.
  - destruct (Z.ltb_spec x v); [simpl; intuition|].
    destruct (Z.eqb_spec x v); simpl; [subst; intuition|].
    rewrite IH. intuition.
Qed.

Lemma unique_values_In (l : list Z) (x : Z) :
  In x (unique_values l) <-> In x l.
Proof.
  induction l as [|a l IH]; simpl; [tauto|].
  rewrite insert_unique_In, IH. intuition.
Qed.

Lemma insert_unique_sorted (x : Z) (vs : list Z) :
  StronglySorted Z.lt vs -> StronglySorted Z.lt (insert_unique x vs).
Proof.
  induction 1 as [|v vs Hs IH Hall]; simpl.
  - repeat constructor.
  - destruct (Z.ltb_spec x v).
    + constructor; [constructor; assumption|].
      constructor; [assumption|].
      eapply Forall_impl; [|exact Hall]. simpl; intros; lia.
    + destruct (Z.eqb_spec x v); [constructor; assumption|].
      constructor; [assumption|].
      apply Forall_forall. intros y Hy.
      apply insert_unique_In in Hy. destruct Hy as [->|Hy]; [lia|].
      rewrite Forall_forall in Hall. now apply Hall.
Qed.

Lemma unique_values_sorted (l : list Z) : StronglySorted Z.lt (unique_values l).
Proof.
  induction l as [|a l IH]; simpl; [constructor|].
  now apply insert_unique_sorted.
Qed.

Lemma unique_values_NoDup (l : list Z) : NoDup (unique_values l).
Proof.
  generalize (unique_values_sorted l).
  induction 1 as [|v vs Hs IH Hall]; constructor; [|assumption].
  intros Hin. rewrite Forall_forall in Hall. specialize (Hall v Hin). lia.
Qed.

(** ** Counting *)

Lemma list_sum_map_plus {A : Type} (f g : A -> nat) (l : list A) :
  list_sum (map (fun x => (f x + g x)%nat) l)
  = (list_sum (map f l) + list_sum (map g l))%nat.
Proof.
  induction l as [|a l IH]; simpl; [reflexivity|]. rewrite IH. lia.
Qed.

Lemma list_sum_indicator (a : Z) (vs : list Z) :
  list_sum (map (fun x => if Z.eq_dec a x then 1%nat else 0%nat) vs)
  = count_occ Z.eq_dec vs a.
Proof.
  induction vs as [|v vs IH]; simpl; [reflexivity|].
  rewrite IH. destruct (Z.eq_dec a v), (Z.eq_dec v a); congruence || lia.
Qed.

(** Over any duplicate-free list of values that covers [l], the occurrence
    counts add up to the length of [l]. *)
Lemma list_sum_count_occ (vs l : list Z) :
  NoDup vs -> incl l vs ->
  list_sum (map (count_occ Z.eq_dec l) vs) = length l.
Proof.
  intros Hnd. induction l as [|a l IH]; intros Hincl.
  - clear. induction vs as [|v vs IH]; simpl; auto.
  - assert (Ha : In a vs) by (apply Hincl; now left).
    assert (Hl : incl l vs) by (intros y Hy; apply Hincl; now right).
    rewrite (map_ext _ (fun x => ((if Z.eq_dec a x then 1 else 0)
                                   + count_occ Z.eq_dec l x)%nat)).
    2:{ intros x. simpl. destruct (Z.eq_dec a x); reflexivity. }
    rewrite list_sum_map_plus, list_sum_indicator, (IH Hl).
    pose proof (proj1 (NoDup_count_occ Z.eq_dec vs) Hnd a).
    pose proof (proj1 (count_occ_In Z.eq_dec vs a) Ha).
    simpl. lia.
Qed.

Lemma counts_sum (l : list Z) :
  list_sum (snd (np_unique l)) = length l.
Proof.
  unfold np_unique. simpl. apply list_sum_count_occ.
  - apply unique_values_NoDup.
  - intros x Hx. now apply unique_values_In.
Qed.

(** [shannon_ent] as a sum over the distinct values. *)
Lemma shannon_ent_unfold (l : list Z) :
  shannon_ent l =
  - Rsum (map (fun x =>
                 let p := INR (count_occ Z.eq_dec l x) / INR (length l) in
                 p * ln p / ln 256)
              (unique_values l)).
Proof.
  unfold shannon_ent, shannon_ent_base.
  pose proof (counts_sum l) as Hs. unfold np_unique in *. simpl in Hs.
  cbv zeta. rewrite Hs, !map_map. reflexivity.
Qed.

(** ** Logarithm inequalities *)

Lemma ln_le_minus_1 (u : R) : 0 < u -> ln u <= u - 1.
Proof.
  intros Hu. pose proof (exp_ineq1_le (ln u)) as H.
  rewrite exp_ln in H by assumption. lra.
Qed.

Lemma ln_ge_1_minus_inv (u : R) : 0 < u -> 1 - / u <= ln u.
Proof.
  intros Hu. pose proof (ln_le_minus_1 (/ u) (Rinv_0_lt_compat u Hu)) as H.
  rewrite ln_Rinv in H by assumption. lra.
Qed.

Lemma ln_le_mono (x y : R) : 0 < x -> x <= y -> ln x <= ln y.
Proof.
  intros Hx [Hlt| ->]; [|lra]. left. now apply ln_increasing.
Qed.

Lemma ln_256_pos : 0 < ln 256.
Proof.
  rewrite <- ln_1. apply ln_increasing; lra.
Qed.

Lemma ln_nonpos (p : R) : 0 < p <= 1 -> ln p <= 0.
Proof.
  intros [H0 H1]. rewrite <- ln_1. now apply ln_le_mono.
Qed.

(** Gibbs' inequality, one term: [p ln p >= p - 1/k - p ln k]. *)
Lemma plnp_lower (p k : R) :
  0 < p -> 0 < k -> p - / k - p * ln k <= p * ln p.
Proof.
  intros Hp Hk.
  assert (Hpk : 0 < p * k) by now apply Rmult_lt_0_compat.
  pose proof (ln_ge_1_minus_inv (p * k) Hpk) as H.
  rewrite ln_mult in H by assumption.
  rewrite Rinv_mult in H.
  assert (Hm : p * (1 - / p * / k) <= p * (ln p + ln k))
    by (apply Rmult_le_compat_l; lra).
  replace (p * (1 - / p * / k)) with (p - / k) in Hm by (field; lra).
  lra.
Qed.

(** For a probability vector [ps] with positive entries,
    [- ln (length ps) <= sum p ln p <= 0]. *)
Lemma plnp_sum_bounds (ps : list R) :
  ps <> [] ->
  (forall p, In p ps -> 0 < p <= 1) ->
  Rsum ps = 1 ->
  - ln (INR (length ps)) <= Rsum (map (fun p => p * ln p) ps) <= 0.
Proof.
  intros Hne Hp Hsum.
  assert (Hk : 0 < INR (length ps)).
  { apply lt_0_INR. destruct ps; [congruence|simpl; lia]. }
  split.
  - set (k := INR (length ps)) in *.
    apply Rle_trans with
      (Rsum (map (fun p => (p + - / k) + (- ln k) * p) ps)).
    + rewrite Rsum_map_plus, Rsum_map_plus, Rsum_map_scal, Rsum_map_const.
      rewrite map_id, Hsum. fold k.
      replace (k * - / k) with (-1) by (field; lra). lra.
    + apply Rsum_map_le. intros p Hin.
      pose proof (plnp_lower p k (proj1 (Hp p Hin)) Hk). lra.
  - apply Rle_trans with (Rsum (map (fun _ : R => 0) ps)).
    + apply Rsum_map_le. intros p Hin.
      pose proof (ln_nonpos p (Hp p Hin)). pose proof (Hp p Hin). nra.
    + rewrite Rsum_map_const. lra.
Qed.

(** ** The empirical distribution of a byte sequence *)

Lemma count_pos_of_unique (l : list Z) (x : Z) :
  In x (unique_values l) -> (1 <= count_occ Z.eq_dec l x <= length l)%nat.
Proof.
  intros Hin. apply (proj1 (unique_values_In _ _)) in Hin.
  pose proof (proj1 (count_occ_In Z.eq_dec l x) Hin).
  pose proof (count_occ_bound Z.eq_dec x l). lia.
Qed.

Lemma freq_range (l : list Z) (x : Z) :
  In x (unique_values l) ->
  0 < INR (count_occ Z.eq_dec l x) / INR (length l) <= 1.
Proof.
  intros Hin. destruct (count_pos_of_unique l x Hin) as [H1 H2].
  assert (Hc : 1 <= INR (count_occ Z.eq_dec l x)).
  { change 1 with (INR 1). now apply le_INR. }
  assert (Hn : INR (count_occ Z.eq_dec l x) <= INR (length l)) by now apply le_INR.
  split.
  - apply Rdiv_lt_0_compat; lra.
  - apply Rmult_le_reg_r with (INR (length l)); [lra|].
    unfold Rdiv. rewrite Rmult_assoc, Rinv_l by lra. lra.
Qed.

Lemma freq_sum (l : list Z) :
  l <> [] ->
  Rsum (map (fun x => INR (count_occ Z.eq_dec l x) / INR (length l))
            (unique_values l)) = 1.
Proof.
  intros Hne.
  assert (Hn : 0 < INR (length l)).
  { apply lt_0_INR. destruct l; [congruence|simpl; lia]. }
  rewrite (Rsum_map_ext _ (fun x => / INR (length l)
                                    * INR (count_occ Z.eq_dec l x))).
  2:{ intros; field; lra. }
  rewrite Rsum_map_scal, Rsum_map_INR.
  pose proof (counts_sum l) as Hs. unfold np_unique in Hs; simpl in Hs.
  rewrite Hs. field; lra.
Qed.

Lemma py_range_In (a b x : Z) : In x (py_range a b) <-> (a <= x < b)%Z.
Proof.
  unfold py_range. rewrite in_map_iff. split.
  - intros (k & <- & Hk). apply in_seq in Hk. lia.
  - intros H. exists (Z.to_nat (x - a)). split; [lia|].
    apply in_seq. lia.
Qed.

Lemma py_range_length (a b : Z) : length (py_range a b) = Z.to_nat (b - a).
Proof.
  unfold py_range. now rewrite length_map, length_seq.
Qed.

Lemma py_range_NoDup (a b : Z) : NoDup (py_range a b).
Proof.
  unfold py_range. apply Finite.Injective_map_NoDup.
  - intros x y H. lia.
  - apply seq_NoDup.
Qed.

(** A byte sequence has at most 256 distinct values. *)
Lemma unique_values_length (l : list Z) :
  Forall is_byte l -> (length (unique_values l) <= 256)%nat.
Proof.
  intros Hb.
  change 256%nat with (Z.to_nat (256 - 0)). rewrite <- py_range_length.
  apply NoDup_incl_length; [apply unique_values_NoDup|].
  intros x Hx. apply (proj1 (unique_values_In _ _)) in Hx.
  rewrite Forall_forall in Hb. apply py_range_In. now apply Hb.
Qed.

Lemma unique_values_nonempty (l : list Z) : l <> [] -> unique_values l <> [].
Proof.
  destruct l as [|a l]; [congruence|]. intros _ H.
  assert (Hin : In a (unique_values (a :: l))) by (apply unique_values_In; now left).
  rewrite H in Hin. contradiction.
Qed.

(** [shannon_ent] through the sum of [p ln p]. *)
Lemma shannon_ent_plnp (l : list Z) :
  shannon_ent l =
  - (Rsum (map (fun p => p * ln p)
               (map (fun x => INR (count_occ Z.eq_dec l x) / INR (length l))
                    (unique_values l))) / ln 256).
Proof.
  rewrite shannon_ent_unfold, map_map. f_equal.
  rewrite (Rsum_map_ext _ (fun x => / ln 256 *
     (INR (count_occ Z.eq_dec l x) / INR (length l)
      * ln (INR (count_occ Z.eq_dec l x) / INR (length l))))).
  2:{ intros x _. cbv zeta. unfold Rdiv. ring. }
  rewrite Rsum_map_scal. unfold Rdiv. ring.
Qed.

(** ** C3, C6, C7: values of [shannon_ent] *)

Lemma median2_same (a : R) : median2 a a = a.
Proof.
  unfold median2, Rmin, Rmax. destruct (Rle_dec a a); lra.
Qed.

Lemma median2_mean (a b : R) : median2 a b = (a + b) / 2.
Proof.
  unfold median2, Rmin, Rmax. destruct (Rle_dec a b); lra.
Qed.

Lemma py_slice_nil {A : Type} (a b : Z) : py_slice (@nil A) a b = [].
Proof.
  unfold py_slice. now rewrite skipn_nil, firstn_nil.
Qed.

Lemma shannon_ent_nil : shannon_ent [] = 0.
Proof.
  unfold shannon_ent, shannon_ent_base. simpl. lra.
Qed.

Lemma ceil_div_0_l (b : Z) : ceil_div 0 b = 0%Z.
Proof.
  unfold ceil_div. destruct b; reflexivity.
Qed.

(** C3.  [shannon_ent] of the empty sequence is [0]; the function is total
    (no operation in it raises on an empty array), and an empty section
    handed to the block loop yields the single sample [0] rather than an
    error, whatever the non-zero block count. *)
Theorem shannon_ent_empty_is_zero :
  shannon_ent [] = 0 /\
  (forall base, shannon_ent_base [] base = 0) /\
  (forall block_size, block_size <> 0%Z ->
     section_samples 2 [] block_size = Done [0]).
Proof.
  split; [exact shannon_ent_nil|]. split.
  - intros base. unfold shannon_ent_base. simpl. lra.
  - intros B HB. unfold section_samples.
    destruct (Z.eqb_spec B 0); [contradiction|].
    change (Z.of_nat (length (@nil Z))) with 0%Z. rewrite ceil_div_0_l.
    unfold section_blocks.
    change (Z.of_nat (length (@nil Z))) with 0%Z.
    change (0 <=? 0)%Z with true. cbv iota.
    rewrite py_slice_nil, shannon_ent_nil, median2_same.
    change (1 * 0 + 1 <=? 0)%Z with false. reflexivity.
Qed.

Lemma shannon_ent_empty_is_zero_witness :
  shannon_ent [] = 0 /\ section_samples 2 [] 100 = Done [0].
Proof.
  split.
  - exact (proj1 shannon_ent_empty_is_zero).
  - apply (proj2 (proj2 shannon_ent_empty_is_zero) 100%Z). discriminate.
Defined.

(** C6.  For every non-empty byte sequence the normalised entropy lies in
    the closed interval [0, 1]. *)
Theorem shannon_ent_unit_interval (l : list Z) :
  l <> [] -> Forall is_byte l -> 0 <= shannon_ent l <= 1.
Proof.
  intros Hne Hb. rewrite shannon_ent_plnp.
  set (ps := map (fun x => INR (count_occ Z.eq_dec l x) / INR (length l))
                 (unique_values l)).
  assert (Hps : ps <> []).
  { unfold ps. intros H. apply map_eq_nil in H.
    now apply (unique_values_nonempty l Hne). }
  destruct (plnp_sum_bounds ps Hps) as [Hlo Hhi].
  - unfold ps. intros p Hin. apply in_map_iff in Hin.
    destruct Hin as (x & <- & Hx). now apply freq_range.
  - unfold ps. now apply freq_sum.
  - assert (Hlen : (1 <= length ps <= 256)%nat).
    { unfold ps. rewrite length_map. split.
      - pose proof (unique_values_nonempty l Hne).
        destruct (unique_values l); [congruence|simpl; lia].
      - now apply unique_values_length. }
    assert (Hk : ln (INR (length ps)) <= ln 256).
    { apply ln_le_mono.
      - apply lt_0_INR. lia.
      - replace 256 with (INR 256) by (simpl; lra). apply le_INR. lia. }
    pose proof ln_256_pos as Hpos.
    set (S := Rsum (map (fun p => p * ln p) ps)) in *.
    assert (H1 : - 1 <= S / ln 256).
    { apply Rmult_le_reg_r with (ln 256); [assumption|].
      unfold Rdiv. rewrite Rmult_assoc, Rinv_l by lra. lra. }
    assert (H2 : S / ln 256 <= 0).
    { apply Rmult_le_reg_r with (ln 256); [assumption|].
      unfold Rdiv. rewrite Rmult_assoc, Rinv_l by lra. lra. }
    lra.
Qed.

Lemma shannon_ent_unit_interval_witness : 0 <= shannon_ent [65; 66; 65]%Z <= 1.
Proof.
  apply shannon_ent_unit_interval.
  - discriminate.
  - repeat constructor; unfold is_byte; lia.
Defined.

Lemma unique_values_repeat (b : Z) (n : nat) :
  (1 <= n)%nat -> unique_values (repeat b n) = [b].
Proof.
  induction n as [|n IH]; [lia|]. intros _.
  destruct n as [|n]; [reflexivity|].
  change (unique_values (repeat b (S (S n))))
    with (insert_unique b (unique_values (repeat b (S n)))).
  rewrite IH by lia. simpl.
  rewrite Z.ltb_irrefl, Z.eqb_refl. reflexivity.
Qed.

Lemma shannon_ent_repeat (b : Z) (n : nat) :
  (1 <= n)%nat -> shannon_ent (repeat b n) = 0.
Proof.
  intros Hn. rewrite shannon_ent_unfold, unique_values_repeat by assumption.
  cbn [map Rsum fold_right].
  rewrite count_occ_repeat_eq, repeat_length by reflexivity.
  assert (0 < INR n) by (apply lt_0_INR; lia).
  replace (INR n / INR n) with 1 by (field; lra).
  rewrite ln_1. unfold Rdiv. ring.
Qed.

(** When each of the 256 byte values occurs [m >= 1] times, the list of
    distinct values has exactly 256 entries. *)
Lemma unique_values_uniform (l : list Z) :
  Forall is_byte l ->
  (forall x, is_byte x -> (1 <= count_occ Z.eq_dec l x)%nat) ->
  length (unique_values l) = 256%nat.
Proof.
  intros Hb Hc. apply Nat.le_antisymm; [now apply unique_values_length|].
  change 256%nat with (Z.to_nat (256 - 0)). rewrite <- py_range_length.
  apply NoDup_incl_length; [apply py_range_NoDup|].
  intros x Hx. apply py_range_In in Hx. apply unique_values_In.
  apply (count_occ_In Z.eq_dec). specialize (Hc x Hx). lia.
Qed.

Lemma length_uniform (l : list Z) (m : nat) :
  Forall is_byte l ->
  (forall x, is_byte x -> count_occ Z.eq_dec l x = m) ->
  length l = (256 * m)%nat.
Proof.
  intros Hb Hc.
  rewrite <- (list_sum_count_occ (py_range 0 256) l).
  - rewrite (map_ext_in _ (fun _ => m)).
    2:{ intros x Hx. apply Hc. now apply py_range_In in Hx. }
    generalize (py_range_length 0 256). change (Z.to_nat (256 - 0)) with 256%nat.
    generalize (py_range 0 256). intros vs. revert m Hc.
    generalize 256%nat. clear. intros k m _. revert k.
    induction vs as [|v vs IH]; intros k Hk; simpl in *; [subst; lia|].
    destruct k as [|k]; [discriminate|]. injection Hk as Hk.
    rewrite (IH k Hk). lia.
  - apply py_range_NoDup.
  - intros x Hx. rewrite Forall_forall in Hb. apply py_range_In. now apply Hb.
Qed.

Lemma shannon_ent_uniform (l : list Z) (m : nat) :
  (1 <= m)%nat ->
  Forall is_byte l ->
  (forall x, is_byte x -> count_occ Z.eq_dec l x = m) ->
  shannon_ent l = 1.
Proof.
  intros Hm Hb Hc.
  pose proof (length_uniform l m Hb Hc) as Hlen.
  assert (Hk : length (unique_values l) = 256%nat).
  { apply unique_values_uniform; [assumption|].
    intros x Hx. rewrite (Hc x Hx). exact Hm. }
  pose proof ln_256_pos as Hpos.
  assert (HM : 0 < INR m) by (apply lt_0_INR; lia).
  rewrite shannon_ent_unfold.
  rewrite (Rsum_map_ext _ (fun _ => - / 256)).
  - rewrite Rsum_map_const, Hk.
    replace (INR 256) with 256 by (simpl; lra). lra.
  - intros x Hx. apply (proj1 (unique_values_In _ _)) in Hx.
    rewrite Forall_forall in Hb. rewrite (Hc x (Hb x Hx)), Hlen.
    cbv zeta. rewrite mult_INR.
    replace (INR 256) with 256 by (simpl; lra).
    replace (INR m / (256 * INR m)) with (/ 256) by (field; lra).
    rewrite ln_Rinv by lra. field. lra.
Qed.

(** C7.  [shannon_ent] is exactly [0] on [N >= 1] copies of one value, and
    is [1] (exactly, in real arithmetic, hence within any tolerance) when
    each of the 256 byte values occurs the same number [m >= 1] of times. *)
Theorem shannon_ent_extremes :
  (forall (b : Z) (N : nat), (1 <= N)%nat -> shannon_ent (repeat b N) = 0) /\
  (forall (l : list Z) (m : nat),
      (1 <= m)%nat -> Forall is_byte l ->
      (forall x, is_byte x -> count_occ Z.eq_dec l x = m) ->
      shannon_ent l = 1 /\ Rabs (shannon_ent l - 1) <= / 1000000000).
Proof.
  split; [exact shannon_ent_repeat|].
  intros l m Hm Hb Hc. rewrite (shannon_ent_uniform l m Hm Hb Hc).
  split; [reflexivity|].
  replace (1 - 1) with 0 by lra. rewrite Rabs_R0. lra.
Qed.

Lemma py_range_bytes : Forall is_byte (py_range 0 256).
Proof.
  apply Forall_forall. intros x Hx. now apply py_range_In in Hx.
Qed.

Lemma py_range_count_once (x : Z) :
  is_byte x -> count_occ Z.eq_dec (py_range 0 256) x = 1%nat.
Proof.
  intros Hx. apply (proj1 (NoDup_count_occ' Z.eq_dec _) (py_range_NoDup 0 256)).
  now apply py_range_In.
Qed.

Lemma shannon_ent_extremes_witness :
  shannon_ent (repeat 65%Z 3) = 0 /\ shannon_ent (py_range 0 256) = 1.
Proof.
  split.
  - apply (proj1 shannon_ent_extremes). lia.
  - apply (proj2 shannon_ent_extremes (py_range 0 256) 1%nat).
    + lia.
    + exact py_range_bytes.
    + exact py_range_count_once.
Defined.

(** ** Reading in chunks *)

Lemma fh_read_chunk (fh : file) (c : nat) :
  fst (fh_read_bytes fh (Z.of_nat c)) = firstn c (file_rest fh).
Proof.
  unfold fh_read_bytes, file_rest. simpl.
  destruct (Z.ltb_spec (Z.of_nat c) 0); [lia|]. now rewrite Nat2Z.id.
Qed.

Lemma fh_read_rest (fh : file) (size : Z) :
  file_rest (snd (fh_read_bytes fh size))
  = skipn (length (fst (fh_read_bytes fh size))) (file_rest fh).
Proof.
  unfold fh_read_bytes, file_rest. simpl.
  rewrite skipn_skipn. f_equal. lia.
Qed.

(** A non-empty read consumes at least one of the remaining bytes. *)
Lemma fh_read_progress (fh : file) (size : Z) :
  fst (fh_read_bytes fh size) <> [] ->
  (length (file_rest (snd (fh_read_bytes fh size))) < length (file_rest fh))%nat.
Proof.
  intros Hne. rewrite fh_read_rest, length_skipn.
  assert (Hle : (length (fst (fh_read_bytes fh size)) <= length (file_rest fh))%nat).
  { unfold fh_read_bytes, file_rest. simpl.
    destruct (size <? 0)%Z; [lia|]. rewrite length_firstn. lia. }
  destruct (fst (fh_read_bytes fh size)); [congruence|]. simpl in *. lia.
Qed.

(** A read of size [-1] or more succeeds; a smaller size raises. *)
Lemma fh_read_ok (fh : file) (size : Z) :
  (-1 <= size)%Z -> fh_read fh size = Done (fh_read_bytes fh size).
Proof.
  intros Hs. unfold fh_read. destruct (Z.ltb_spec size (-1)); [lia|reflexivity].
Qed.

Lemma fh_read_raises (fh : file) (size : Z) :
  (size < -1)%Z -> fh_read fh size = ValueError.
Proof.
  intros Hs. unfold fh_read. destruct (Z.ltb_spec size (-1)); [reflexivity|lia].
Qed.

(** The generator stops on every file and for every chunk size from [-1]
    up, within one read more than there are bytes left. *)
Lemma get_chunk_terminates (fuel : nat) (fh : file) (chunksize : Z) :
  (-1 <= chunksize)%Z ->
  (length (file_rest fh) < fuel)%nat ->
  exists chunks, get_chunk fuel fh chunksize = Done chunks.
Proof.
  intros Hs. revert fh. induction fuel as [|fuel IH]; intros fh Hf; [lia|].
  cbn [get_chunk]. rewrite fh_read_ok by assumption.
  pose proof (fh_read_progress fh chunksize) as Hp.
  destruct (fh_read_bytes fh chunksize) as [chunk fh']. simpl in Hp.
  destruct chunk as [|b chunk]; [now eexists|].
  destruct (IH fh') as [rest Hrest].
  - assert (b :: chunk <> []) by discriminate. specialize (Hp H). lia.
  - rewrite Hrest. now eexists.
Qed.

(** With a chunk size below [-1] the first read raises. *)
Lemma get_chunk_raises (fuel : nat) (fh : file) (chunksize : Z) :
  (chunksize < -1)%Z -> (1 <= fuel)%nat ->
  get_chunk fuel fh chunksize = ValueError.
Proof.
  intros Hs Hf. destruct fuel as [|fuel]; [lia|].
  cbn [get_chunk]. now rewrite fh_read_raises.
Qed.

Lemma n_chunks_0 (c : nat) : (1 <= c)%nat -> n_chunks 0 c = 0%nat.
Proof.
  intros Hc. unfold n_chunks. apply Nat.div_small. lia.
Qed.

Lemma n_chunks_pred (r c : nat) :
  (1 <= c)%nat -> (1 <= r)%nat -> n_chunks r c = S ((r - 1) / c).
Proof.
  intros Hc Hr. unfold n_chunks.
  replace (r + c - 1)%nat with ((r - 1) + 1 * c)%nat by lia.
  rewrite Nat.div_add by lia. lia.
Qed.

Lemma n_chunks_S (r c : nat) :
  (1 <= c)%nat -> (1 <= r)%nat -> n_chunks r c = S (n_chunks (r - c) c).
Proof.
  intros Hc Hr. rewrite n_chunks_pred by assumption. f_equal.
  destruct (Nat.le_gt_cases r c) as [Hle|Hgt].
  - replace (r - c)%nat with 0%nat by lia. rewrite n_chunks_0 by assumption.
    apply Nat.div_small. lia.
  - rewrite (n_chunks_pred (r - c) c) by lia.
    replace (r - 1)%nat with ((r - c - 1) + 1 * c)%nat by lia.
    rewrite Nat.div_add by lia. lia.
Qed.

(** With a positive chunk size the generator yields the consecutive pieces
    of the unread bytes. *)
Lemma get_chunk_chunks_of (c fuel : nat) (fh : file) :
  (1 <= c)%nat ->
  (length (file_rest fh) < fuel)%nat ->
  get_chunk fuel fh (Z.of_nat c)
  = Done (chunks_of (n_chunks (length (file_rest fh)) c) c (file_rest fh)).
Proof.
  intros Hc. revert fh. induction fuel as [|fuel IH]; intros fh Hf; [lia|].
  cbn [get_chunk]. rewrite fh_read_ok by lia.
  pose proof (fh_read_chunk fh c) as Hchunk.
  pose proof (fh_read_rest fh (Z.of_nat c)) as Hrest.
  pose proof (fh_read_progress fh (Z.of_nat c)) as Hprog.
  destruct (fh_read_bytes fh (Z.of_nat c)) as [chunk fh']. simpl in *.
  destruct (file_rest fh) as [|b rest] eqn:Er.
  - rewrite firstn_nil in Hchunk. subst chunk.
    simpl. now rewrite n_chunks_0.
  - destruct chunk as [|b' chunk'] eqn:Ec.
    { destruct c; [lia|]. discriminate. }
    rewrite <- Ec in *. clear Ec b' chunk'.
    rewrite IH by (assert (chunk <> []) as H by (subst chunk; destruct c; [lia|discriminate]);
                   specialize (Hprog H); lia).
    f_equal. rewrite (n_chunks_S (length (b :: rest)) c) by (simpl; lia).
    cbn [chunks_of]. rewrite <- Hchunk. f_equal.
    assert (Hskip : file_rest fh' = skipn c (b :: rest)).
    { rewrite Hrest, Hchunk, length_firstn.
      destruct (Nat.le_gt_cases c (length (b :: rest))) as [Hle|Hgt].
      - now rewrite Nat.min_l.
      - rewrite Nat.min_r by lia. rewrite !skipn_all2; auto; lia. }
    rewrite Hskip, length_skipn. reflexivity.
Qed.

Lemma chunks_of_length {A : Type} (n c : nat) (l : list A) :
  length (chunks_of n c l) = n.
Proof.
  revert l. induction n as [|n IH]; intros l; simpl; [reflexivity|].
  now rewrite IH.
Qed.

(** The [k]-th piece starts at offset [k * c]. *)
Lemma chunks_of_nth {A : Type} (n c k : nat) (l : list A) :
  (k < n)%nat ->
  nth k (chunks_of n c l) [] = firstn c (skipn (k * c) l).
Proof.
  revert k l. induction n as [|n IH]; intros k l Hk; [lia|].
  destruct k as [|k]; simpl; [reflexivity|].
  rewrite IH by lia. rewrite skipn_skipn. do 2 f_equal. lia.
Qed.

(** Enough pieces cover the list without gap or overlap. *)
Lemma chunks_of_concat {A : Type} (n c : nat) (l : list A) :
  (length l <= n * c)%nat -> concat (chunks_of n c l) = l.
Proof.
  revert l. induction n as [|n IH]; intros l Hl; simpl.
  - destruct l; [reflexivity|simpl in Hl; lia].
  - rewrite IH; [apply firstn_skipn|].
    rewrite length_skipn. lia.
Qed.

Lemma n_chunks_cover (r c : nat) :
  (1 <= c)%nat -> (r <= n_chunks r c * c)%nat.
Proof.
  intros Hc. unfold n_chunks.
  pose proof (Nat.div_mod_eq (r + c - 1) c) as Hd.
  pose proof (Nat.mod_upper_bound (r + c - 1) c ltac:(lia)) as Hm.
  nia.
Qed.

Lemma n_chunks_tight (r c : nat) :
  (1 <= c)%nat -> (1 <= r)%nat -> ((n_chunks r c - 1) * c < r)%nat.
Proof.
  intros Hc Hr. rewrite n_chunks_pred by assumption.
  pose proof (Nat.div_mod_eq (r - 1) c) as Hd.
  pose proof (Nat.mod_upper_bound (r - 1) c ltac:(lia)) as Hm.
  nia.
Qed.

(** [ceil_div] on positive operands. *)
Lemma ceil_div_pos (a b : Z) :
  (0 < b)%Z -> ceil_div a b = ((a + b - 1) / b)%Z.
Proof.
  intros Hb. unfold ceil_div.
  pose proof (Z.div_mod (- a) b ltac:(lia)) as Hd.
  pose proof (Z.mod_pos_bound (- a) b Hb) as Hm.
  apply Z.div_unique with (r := (b - 1 - (- a) mod b)%Z); lia.
Qed.

Lemma ceil_div_n_chunks (r c : nat) :
  (1 <= c)%nat ->
  ceil_div (Z.of_nat r) (Z.of_nat c) = Z.of_nat (n_chunks r c).
Proof.
  intros Hc. rewrite ceil_div_pos by lia. unfold n_chunks.
  rewrite Nat2Z.inj_div. f_equal. lia.
Qed.

Lemma ceil_div_ge_1 (a b : Z) :
  (1 <= a)%Z -> (1 <= b)%Z -> (1 <= ceil_div a b)%Z.
Proof.
  intros Ha Hb. rewrite ceil_div_pos by lia.
  apply Z.div_le_lower_bound; lia.
Qed.

(** ** The sampling loop of [bin_ent] *)

Lemma bin_ent_loop_samples (ibytes : ibytes_t) (cs : list (list Z)) (st : ent_state) :
  shannon_samples (fold_left (bin_ent_step ibytes) cs st)
  = shannon_samples st ++ map shannon_ent cs.
Proof.
  revert st. induction cs as [|chunk cs IH]; intros st; simpl.
  - now rewrite app_nil_r.
  - rewrite IH. simpl. now rewrite <- app_assoc.
Qed.

Lemma ceil_div_nonneg (a b : Z) :
  (0 <= a)%Z -> (1 <= b)%Z -> (0 <= ceil_div a b)%Z.
Proof.
  intros Ha Hb. rewrite ceil_div_pos by lia. apply Z.div_pos; lia.
Qed.

(** The chunk loop of [bin_ent] ends for every positive chunk count: the
    chunk size is then non-negative and no read raises. *)
Lemma bin_ent_chunks_terminates (fuel : nat) (data : list Z) (chunks : Z) :
  (1 <= chunks)%Z -> (length data < fuel)%nat ->
  exists cs, bin_ent_chunks fuel data chunks = Done cs.
Proof.
  intros HN Hf. unfold bin_ent_chunks.
  destruct (Z.eqb_spec chunks 0); [lia|].
  pose proof (ceil_div_nonneg (Z.of_nat (length data)) chunks ltac:(lia) HN).
  apply get_chunk_terminates; [lia|].
  unfold file_rest, open_rb. simpl. exact Hf.
Qed.

(** For a non-empty file and a positive chunk count, the chunks are the
    consecutive pieces of [ceil(L/N)] bytes. *)
Lemma bin_ent_chunks_pos (fuel : nat) (data : list Z) (N : Z) :
  data <> [] -> (1 <= N)%Z -> (length data < fuel)%nat ->
  let c := Z.to_nat (ceil_div (Z.of_nat (length data)) N) in
  (1 <= c)%nat /\
  bin_ent_chunks fuel data N
  = Done (chunks_of (n_chunks (length data) c) c data).
Proof.
  intros Hne HN Hf c.
  assert (HL : (1 <= Z.of_nat (length data))%Z)
    by (destruct data; [congruence|simpl length; lia]).
  pose proof (ceil_div_ge_1 _ _ HL HN) as Hcs.
  assert (Hc : (1 <= c)%nat) by (unfold c; lia).
  split; [exact Hc|].
  unfold bin_ent_chunks. destruct (Z.eqb_spec N 0); [lia|].
  replace (ceil_div (Z.of_nat (length data)) N) with (Z.of_nat c)
    by (unfold c; lia).
  rewrite get_chunk_chunks_of; [reflexivity|exact Hc|exact Hf].
Qed.

(** ** C5: number, size and position of the chunks *)

(** C5.  For a non-empty stream of length [L] and a chunk count [N >= 1],
    [bin_ent] returns [ceil(L / ceil(L/N))] samples, one per chunk; the
    [k]-th chunk is the piece of the stream at offset [k * ceil(L/N)], the
    offsets increase strictly and stay inside the stream, every chunk but
    the last has exactly [ceil(L/N)] bytes, and the chunks put end to end
    are the stream. *)
Theorem bin_ent_chunking (data : list Z) (N : Z) (ibytes : ibytes_t) (fuel : nat) :
  data <> [] -> (1 <= N)%Z -> (length data < fuel)%nat ->
  let L := Z.of_nat (length data) in
  let chunksize := ceil_div L N in
  exists chunks samples ranges,
    bin_ent_chunks fuel data N = Done chunks /\
    bin_ent fuel data N ibytes = Done (samples, ranges) /\
    Z.of_nat (length samples) = ceil_div L chunksize /\
    length samples = length chunks /\
    (1 <= chunksize)%Z /\
    (forall k, (k < length chunks)%nat ->
       nth k chunks []
       = firstn (Z.to_nat chunksize) (skipn (k * Z.to_nat chunksize) data)
       /\ (k * Z.to_nat chunksize < length data)%nat) /\
    (forall j k, (j < k)%nat ->
       (j * Z.to_nat chunksize < k * Z.to_nat chunksize)%nat) /\
    (forall k, (S k < length chunks)%nat ->
       Z.of_nat (length (nth k chunks [])) = chunksize) /\
    concat chunks = data.
Proof.
  intros Hne HN Hf L chunksize.
  destruct (bin_ent_chunks_pos fuel data N Hne HN Hf) as [Hc Hchunks].
  fold L in Hc, Hchunks. fold chunksize in Hc, Hchunks.
  set (c := Z.to_nat chunksize) in *.
  set (n := n_chunks (length data) c) in *.
  assert (Hlen : (1 <= length data)%nat)
    by (destruct data; [congruence|simpl; lia]).
  pose proof (n_chunks_tight (length data) c Hc Hlen) as Htight.
  pose proof (n_chunks_cover (length data) c Hc) as Hcover.
  fold n in Htight, Hcover.
  exists (chunks_of n c data).
  eexists. eexists.
  split; [exact Hchunks|].
  split; [unfold bin_ent; rewrite Hchunks; reflexivity|].
  rewrite bin_ent_loop_samples. simpl shannon_samples.
  rewrite app_nil_l, length_map, chunks_of_length.
  split.
  { replace chunksize with (Z.of_nat c) by (unfold c; lia).
    unfold L. now rewrite ceil_div_n_chunks. }
  split; [reflexivity|].
  split; [unfold c in Hc; lia|].
  split; [|split; [|split]].
  - intros k Hk. split; [now apply chunks_of_nth|]. nia.
  - intros j k Hjk. apply Nat.mul_lt_mono_pos_r; lia.
  - intros k Hk. rewrite chunks_of_nth by lia.
    rewrite length_firstn, length_skipn.
    assert ((S k) * c <= (n - 1) * c)%nat by (apply Nat.mul_le_mono_r; lia).
    assert (Hcz : Z.of_nat c = chunksize) by (unfold c; unfold c in Hc; lia).
    rewrite <- Hcz. apply f_equal. nia.
  - now apply chunks_of_concat.
Qed.

Lemma bin_ent_chunking_witness :
  exists chunks samples ranges,
    bin_ent_chunks 6 [1; 2; 3; 4; 5]%Z 2 = Done chunks /\
    bin_ent 6 [1; 2; 3; 4; 5]%Z 2 [] = Done (samples, ranges) /\
    length samples = 2%nat /\ concat chunks = [1; 2; 3; 4; 5]%Z.
Proof.
  destruct (bin_ent_chunking [1; 2; 3; 4; 5]%Z 2 [] 6)
    as (chunks & samples & ranges & H1 & H2 & H3 & H4 & H5 & H6 & H6' & H7 & H8).
  - discriminate.
  - lia.
  - simpl. lia.
  - exists chunks, samples, ranges.
    split; [exact H1|]. split; [exact H2|]. split; [|exact H8].
    change (ceil_div (Z.of_nat (length [1; 2; 3; 4; 5]%Z))
              (ceil_div (Z.of_nat (length [1; 2; 3; 4; 5]%Z)) 2)) with 2%Z in H3.
    lia.
Defined.

(** ** C1, C2: the samples [bin_ent] emits *)

(** With chunk count 1 the whole file is the only chunk. *)
Lemma bin_ent_chunks_one (fuel : nat) (data : list Z) :
  data <> [] -> (length data < fuel)%nat ->
  bin_ent_chunks fuel data 1 = Done [data].
Proof.
  intros Hne Hf.
  destruct (bin_ent_chunks_pos fuel data 1 Hne ltac:(lia) Hf) as [Hc ->].
  assert (Hcd : ceil_div (Z.of_nat (length data)) 1 = Z.of_nat (length data)).
  { rewrite ceil_div_pos by lia. rewrite Z.div_1_r. lia. }
  rewrite Hcd, Nat2Z.id in *.
  rewrite n_chunks_pred by lia.
  rewrite Nat.div_small by lia. simpl. now rewrite firstn_all.
Qed.

(** C1, as the code has it.  The median of the raw entropy and the previous
    one is computed and then overwritten ([ent = real_ent]): for every file
    and every chunk count [>= 1], the [k]-th sample [bin_ent] emits is the
    raw entropy of the [k]-th chunk. *)
Theorem bin_ent_samples_are_raw (fuel : nat) (data : list Z) (chunks : Z)
    (ibytes : ibytes_t) :
  (1 <= chunks)%Z -> (length data < fuel)%nat ->
  exists cs samples ranges,
    bin_ent_chunks fuel data chunks = Done cs /\
    bin_ent fuel data chunks ibytes = Done (samples, ranges) /\
    length samples = length cs /\
    forall k, (k < length cs)%nat ->
      nth k samples 0 = shannon_ent (nth k cs []).
Proof.
  intros HN Hf.
  destruct (bin_ent_chunks_terminates fuel data chunks HN Hf) as [cs Hcs].
  exists cs. eexists. eexists.
  split; [exact Hcs|].
  split; [unfold bin_ent; rewrite Hcs; reflexivity|].
  rewrite bin_ent_loop_samples. simpl shannon_samples. rewrite app_nil_l.
  split; [apply length_map|].
  intros k Hk. rewrite <- shannon_ent_nil at 1. apply map_nth.
Qed.

Lemma bin_ent_samples_are_raw_witness :
  exists cs samples ranges,
    bin_ent_chunks 3 [7; 7]%Z 1 = Done cs /\
    bin_ent 3 [7; 7]%Z 1 [] = Done (samples, ranges) /\
    length samples = length cs /\
    forall k, (k < length cs)%nat ->
      nth k samples 0 = shannon_ent (nth k cs []).
Proof.
  apply (bin_ent_samples_are_raw 3 [7; 7]%Z 1 []).
  - lia.
  - simpl. lia.
Defined.

(** The file holding each byte value once, in increasing order. *)
Lemma bin_ent_all_bytes_once (ibytes : ibytes_t) :
  exists ranges,
    bin_ent 257 (py_range 0 256) 1 ibytes = Done ([1], ranges).
Proof.
  unfold bin_ent. rewrite bin_ent_chunks_one.
  - eexists. cbn [fold_left]. unfold bin_ent_step at 1. cbn [shannon_samples bin_ent_init].
    rewrite (shannon_ent_uniform (py_range 0 256) 1%nat (le_n 1)
               py_range_bytes py_range_count_once).
    reflexivity.
  - discriminate.
  - rewrite py_range_length. simpl. lia.
Qed.

(** C1, as the claim states it, fails: on the 256-byte file with each byte
    value once and chunk count 1, the first sample is not the median of the
    first chunk's raw entropy (which is [1]) and the initial previous
    entropy [0] (that median is [1/2]; the sample is [1]). *)
Lemma bin_ent_first_sample_not_median :
  exists chunks samples ranges,
    bin_ent_chunks 257 (py_range 0 256) 1 = Done chunks /\
    bin_ent 257 (py_range 0 256) 1 [] = Done (samples, ranges) /\
    nth 0 samples 0 <> median2 (shannon_ent (nth 0 chunks [])) 0.
Proof.
  destruct (bin_ent_all_bytes_once []) as [ranges H].
  exists [py_range 0 256], [1], ranges.
  split.
  - apply bin_ent_chunks_one; [discriminate|].
    rewrite py_range_length. simpl. lia.
  - split; [exact H|].
    cbn [nth].
    rewrite (shannon_ent_uniform (py_range 0 256) 1%nat (le_n 1)
               py_range_bytes py_range_count_once).
    rewrite median2_mean. lra.
Qed.

Lemma Permutation_count_once (data : list Z) :
  Permutation data (py_range 0 256) ->
  Forall is_byte data /\
  (forall x, is_byte x -> count_occ Z.eq_dec data x = 1%nat).
Proof.
  intros HP. split.
  - apply Forall_forall. intros x Hx. apply py_range_In.
    now apply (Permutation_in x HP).
  - intros x Hx.
    rewrite (proj1 (Permutation_count_occ Z.eq_dec _ _) HP x).
    now apply py_range_count_once.
Qed.

(** C2.  For a 256-byte file that holds each byte value exactly once (a
    permutation of 0..255), [bin_ent] with chunk count 1 yields exactly one
    sample; its value is [1], hence within [1e-9] of [1]. *)
Theorem bin_ent_all_bytes_one_chunk (fuel : nat) (data : list Z) (ibytes : ibytes_t) :
  Permutation data (py_range 0 256) -> (256 < fuel)%nat ->
  exists s ranges,
    bin_ent fuel data 1 ibytes = Done ([s], ranges) /\
    s = 1 /\ Rabs (s - 1) <= / 1000000000.
Proof.
  intros HP Hf.
  destruct (Permutation_count_once data HP) as [Hb Hc].
  assert (Hlen : length data = 256%nat).
  { rewrite (Permutation_length HP), py_range_length. reflexivity. }
  assert (Hne : data <> []) by (intros ->; discriminate).
  exists (shannon_ent data). eexists.
  split.
  - unfold bin_ent. rewrite bin_ent_chunks_one by (assumption || lia).
    cbn [fold_left]. unfold bin_ent_step at 1.
    cbn [shannon_samples bin_ent_init]. reflexivity.
  - rewrite (shannon_ent_uniform data 1%nat (le_n 1) Hb Hc).
    split; [reflexivity|].
    replace (1 - 1) with 0 by lra. rewrite Rabs_R0. lra.
Qed.

Lemma bin_ent_all_bytes_one_chunk_witness :
  exists s ranges,
    bin_ent 257 (py_range 0 256) 1 [] = Done ([s], ranges) /\
    s = 1 /\ Rabs (s - 1) <= / 1000000000.
Proof.
  apply (bin_ent_all_bytes_one_chunk 257 (py_range 0 256) []).
  - apply Permutation_refl.
  - lia.
Defined.

(** ** C10: percentages of the tracked byte groups *)

Lemma occurance_of_sum (cbytes : Z -> nat) (b_range : list Z) :
  occurance_of cbytes b_range = list_sum (map cbytes b_range).
Proof.
  unfold occurance_of.
  assert (H : forall acc,
             fold_left (fun occurance b => (occurance + cbytes b)%nat) b_range acc
             = (acc + list_sum (map cbytes b_range))%nat).
  { induction b_range as [|b t IH]; intros acc; simpl; [lia|].
    rewrite IH. lia. }
  now rewrite H.
Qed.

Lemma dict_get_append_same (label : string) (v : R)
    (d : list (string * list R)) (s : list R) :
  dict_get label d = Some s ->
  dict_get label (append_to label v d) = Some (s ++ [v]).
Proof.
  induction d as [|[k series] t IH]; simpl; [discriminate|].
  destruct (String.eqb_spec k label) as [->|Hk]; simpl.
  - rewrite String.eqb_refl. now intros [= ->].
  - destruct (String.eqb_spec k label); [contradiction|]. exact IH.
Qed.

Lemma dict_get_append_other (label k : string) (v : R)
    (d : list (string * list R)) :
  k <> label ->
  dict_get label (append_to k v d) = dict_get label d.
Proof.
  intros Hk. induction d as [|[k' series] t IH]; simpl; [reflexivity|].
  destruct (String.eqb_spec k' k) as [->|Hk']; simpl.
  - destruct (String.eqb_spec k label); [contradiction|reflexivity].
  - destruct (String.eqb_spec k' label); [reflexivity|exact IH].
Qed.

Section GroupLoop.

Variable chunk : list Z.

(** The [for label, b_range in ibytes.items()] loop on one chunk. *)
Let group_loop (items : ibytes_t) (br : list (string * list R)) :=
  fold_left
    (fun br '(label, b_range) =>
       append_to label (group_percentage chunk b_range) br)
    items br.

Lemma group_loop_other (label : string) (items : ibytes_t)
    (br : list (string * list R)) :
  ~ In label (map fst items) ->
  dict_get label (group_loop items br) = dict_get label br.
Proof.
  revert br. induction items as [|[k r] t IH]; intros br Hnin; [reflexivity|].
  simpl in Hnin. unfold group_loop in *. cbn [fold_left].
  rewrite IH by tauto. apply dict_get_append_other. tauto.
Qed.

Lemma group_loop_same (label : string) (b_range : list Z) (items : ibytes_t)
    (br : list (string * list R)) (s : list R) :
  NoDup (map fst items) ->
  In (label, b_range) items ->
  dict_get label br = Some s ->
  dict_get label (group_loop items br)
  = Some (s ++ [group_percentage chunk b_range]).
Proof.
  revert br. induction items as [|[k r] t IH]; intros br Hnd Hin Hget;
    [contradiction|].
  simpl in Hnd. inversion Hnd as [|? ? Hk Hnd']; subst.
  unfold group_loop in *. cbn [fold_left].
  destruct Hin as [[= -> ->]|Hin].
  - rewrite (group_loop_other label t) by exact Hk.
    now apply dict_get_append_same.
  - apply IH; [assumption|assumption|].
    rewrite dict_get_append_other; [assumption|].
    intros ->. apply Hk. apply in_map_iff. now exists (label, b_range).
Qed.

End GroupLoop.

Lemma bin_ent_loop_ranges (ibytes : ibytes_t) (label : string) (b_range : list Z)
    (cs : list (list Z)) (st : ent_state) (s : list R) :
  NoDup (map fst ibytes) ->
  In (label, b_range) ibytes ->
  dict_get label (byte_ranges st) = Some s ->
  dict_get label (byte_ranges (fold_left (bin_ent_step ibytes) cs st))
  = Some (s ++ map (fun chunk => group_percentage chunk b_range) cs).
Proof.
  intros Hnd Hin. revert st s.
  induction cs as [|chunk cs IH]; intros st s Hget; simpl.
  - now rewrite app_nil_r.
  - rewrite (IH _ (s ++ [group_percentage chunk b_range])).
    + now rewrite <- app_assoc.
    + unfold bin_ent_step. cbn [byte_ranges].
      destruct ibytes as [|kv rest] eqn:E; [contradiction|].
      change (0 <? length (kv :: rest))%nat with true. cbv iota.
      now apply group_loop_same.
Qed.

Lemma dict_get_init (ibytes : ibytes_t) (label : string) (b_range : list Z) :
  In (label, b_range) ibytes ->
  dict_get label (byte_ranges (bin_ent_init ibytes)) = Some [].
Proof.
  intros Hin. unfold bin_ent_init. cbn [byte_ranges].
  destruct ibytes as [|kv rest] eqn:E; [contradiction|].
  change (0 <? length (kv :: rest))%nat with true. cbv iota.
  rewrite <- E in *. clear E kv rest.
  induction ibytes as [|[k r] t IH]; [contradiction|]. simpl.
  destruct (String.eqb_spec k label) as [->|Hk]; [reflexivity|].
  destruct Hin as [[= -> ->]|Hin]; [contradiction|]. now apply IH.
Qed.

(** C10.  The percentage [bin_ent] records for a tracked group on a chunk is
    [100 * (sum over the entries of the group's list of the entry's count in
    the chunk) / len(chunk)]; for a chunk count [>= 1] the series of a label
    holds that value for each chunk in order.  The list is walked entry by entry, so a value listed
    twice is counted twice: for the group [[0, 0]] on the one-byte file [[0]]
    the recorded percentage is [200]. *)
Theorem bin_ent_group_percentage :
  (forall chunk b_range,
      group_percentage chunk b_range
      = 100 * (INR (list_sum (map (fun b => count_occ Z.eq_dec chunk b) b_range))
               / INR (length chunk))) /\
  (forall fuel data chunks ibytes label b_range,
      (1 <= chunks)%Z -> (length data < fuel)%nat ->
      NoDup (map fst ibytes) -> In (label, b_range) ibytes ->
      exists cs samples ranges,
        bin_ent_chunks fuel data chunks = Done cs /\
        bin_ent fuel data chunks ibytes = Done (samples, ranges) /\
        dict_get label ranges
        = Some (map (fun chunk => group_percentage chunk b_range) cs)) /\
  bin_ent 2 [0%Z] 1 [("dup"%string, [0; 0]%Z)]
  = Done ([0], [("dup"%string, [200])]) /\
  100 < group_percentage [0%Z] [0; 0]%Z.
Proof.
  split; [|split; [|split]].
  - intros chunk b_range. unfold group_percentage.
    rewrite occurance_of_sum. unfold Counter, Rdiv. ring.
  - intros fuel data chunks ibytes label b_range HN Hf Hnd Hin.
    destruct (bin_ent_chunks_terminates fuel data chunks HN Hf) as [cs Hcs].
    exists cs. eexists. eexists.
    split; [exact Hcs|].
    split; [unfold bin_ent; rewrite Hcs; reflexivity|].
    rewrite (bin_ent_loop_ranges ibytes label b_range cs _ []); auto.
    now apply dict_get_init with (b_range := b_range).
  - unfold bin_ent. rewrite bin_ent_chunks_one by (discriminate || simpl; lia).
    cbn [fold_left]. unfold bin_ent_step, bin_ent_init.
    cbn [shannon_samples byte_ranges prev_ent length Nat.ltb Nat.leb map fst
         fold_left append_to String.eqb Ascii.eqb Bool.eqb app].
    pose proof (shannon_ent_repeat 0%Z 1 (le_n 1)) as H0.
    cbn [repeat] in H0. rewrite H0.
    assert (Hg : group_percentage [0%Z] [0; 0]%Z = 200)
      by (unfold group_percentage, occurance_of, Counter; simpl; lra).
    rewrite Hg. reflexivity.
  - unfold group_percentage, occurance_of, Counter. simpl. lra.
Qed.

Lemma bin_ent_group_percentage_witness :
  exists cs samples ranges,
    bin_ent_chunks 4 [0; 1; 2]%Z 3 = Done cs /\
    bin_ent 4 [0; 1; 2]%Z 3 [("ctrl"%string, [0; 1]%Z)] = Done (samples, ranges) /\
    dict_get "ctrl"%string ranges
    = Some (map (fun chunk => group_percentage chunk [0; 1]%Z) cs).
Proof.
  apply (proj1 (proj2 bin_ent_group_percentage) 4%nat [0; 1; 2]%Z 3%Z
           [("ctrl"%string, [0; 1]%Z)] "ctrl"%string [0; 1]%Z).
  - discriminate.
  - simpl. lia.
  - simpl. constructor; [intros []|constructor].
  - now left.
Defined.

(** ** C9: the histogram rows *)

Lemma sort_insert_perm (x : nat) (l : list nat) :
  Permutation (sort_insert x l) (x :: l).
Proof.
  induction l as [|y t IH]; simpl; [apply Permutation_refl|].
  destruct (x <=? y)%nat; [apply Permutation_refl|].
  apply perm_trans with (y :: x :: t); [now apply perm_skip|apply perm_swap].
Qed.

Lemma list_sort_perm (l : list nat) : Permutation (list_sort l) l.
Proof.
  induction l as [|x l IH]; simpl; [constructor|].
  apply perm_trans with (x :: list_sort l);
    [apply sort_insert_perm|now apply perm_skip].
Qed.

Lemma sort_insert_sorted (x : nat) (l : list nat) :
  StronglySorted le l -> StronglySorted le (sort_insert x l).
Proof.
  induction 1 as [|y t Hs IH Hall]; simpl; [repeat constructor|].
  destruct (Nat.leb_spec x y).
  - constructor; [now constructor|].
    constructor; [assumption|].
    eapply Forall_impl; [|exact Hall]. simpl; intros; lia.
  - constructor; [assumption|].
    apply Forall_forall. intros z Hz.
    apply (Permutation_in z (sort_insert_perm x t)) in Hz.
    destruct Hz as [<-|Hz]; [lia|].
    rewrite Forall_forall in Hall. now apply Hall.
Qed.

Lemma list_sort_sorted (l : list nat) : StronglySorted le (list_sort l).
Proof.
  induction l as [|x l IH]; simpl; [constructor|].
  now apply sort_insert_sorted.
Qed.

Lemma StronglySorted_snoc {A : Type} (R : A -> A -> Prop) (l : list A) (x : A) :
  StronglySorted R l -> Forall (fun y => R y x) l ->
  StronglySorted R (l ++ [x]).
Proof.
  induction 1 as [|y t Hs IH Hall]; intros Hx; simpl; [repeat constructor|].
  inversion Hx as [|? ? Hyx Ht]; subst.
  constructor; [now apply IH|].
  apply Forall_app. split; [assumption|now constructor].
Qed.

Lemma rev_sorted_descending (l : list nat) :
  StronglySorted le l -> StronglySorted ge (rev l).
Proof.
  induction 1 as [|y t Hs IH Hall]; simpl; [constructor|].
  apply StronglySorted_snoc; [assumption|].
  apply Forall_rev. eapply Forall_impl; [|exact Hall].
  intros z Hz. unfold ge. exact Hz.
Qed.

Lemma sorted_row_perm (ignore_0 : bool) (file_array : list Z) :
  Permutation (sorted_row ignore_0 file_array) (ordered_row ignore_0 file_array).
Proof.
  unfold sorted_row, ordered_row.
  apply perm_trans with (list_sort (map (Counter file_array)
                                        (py_range (int_of_bool ignore_0) 256))).
  - apply Permutation_sym, Permutation_rev.
  - apply list_sort_perm.
Qed.

Lemma sorted_row_descending (ignore_0 : bool) (file_array : list Z) :
  StronglySorted ge (sorted_row ignore_0 file_array).
Proof.
  unfold sorted_row. apply rev_sorted_descending, list_sort_sorted.
Qed.

Lemma ordered_row_sum_all (file_array : list Z) :
  Forall is_byte file_array ->
  list_sum (ordered_row false file_array) = length file_array.
Proof.
  intros Hb. unfold ordered_row, Counter. cbn [int_of_bool].
  apply list_sum_count_occ; [apply py_range_NoDup|].
  intros x Hx. rewrite Forall_forall in Hb. apply py_range_In. now apply Hb.
Qed.

Lemma py_range_0_256 : py_range 0 256 = 0%Z :: py_range 1 256.
Proof. vm_compute. reflexivity. Qed.

Lemma ordered_row_split (file_array : list Z) :
  ordered_row false file_array
  = count_occ Z.eq_dec file_array 0%Z :: ordered_row true file_array.
Proof.
  unfold ordered_row. cbn [int_of_bool]. now rewrite py_range_0_256.
Qed.

Lemma ordered_row_sum_nonzero (file_array : list Z) :
  Forall is_byte file_array ->
  list_sum (ordered_row true file_array)
  = (length file_array - count_occ Z.eq_dec file_array 0%Z)%nat.
Proof.
  intros Hb. pose proof (ordered_row_sum_all file_array Hb) as H.
  rewrite ordered_row_split in H.
  change (list_sum (?a :: ?l)) with (a + list_sum l)%nat in H. lia.
Qed.

(** C9.  Over a byte sequence of length [L]: the value-indexed row sums to
    [L] when zero is included and to [L] minus the number of zero bytes when
    it is excluded; the rank-ordered row is sorted in descending order and
    is a permutation of the value-indexed row.  [bin_hist] and
    [section_byte_occurance_histogram] return these rows. *)
Theorem histogram_rows (file_array : list Z) (ignore_0 : bool) :
  Forall is_byte file_array ->
  bin_hist file_array ignore_0 true
  = (ordered_row ignore_0 file_array, Some (sorted_row ignore_0 file_array)) /\
  section_byte_occurance_histogram [file_array] ignore_0 true
  = [(ordered_row ignore_0 file_array, Some (sorted_row ignore_0 file_array))] /\
  list_sum (ordered_row true file_array)
  = (length file_array - count_occ Z.eq_dec file_array 0%Z)%nat /\
  list_sum (ordered_row false file_array) = length file_array /\
  StronglySorted ge (sorted_row ignore_0 file_array) /\
  Permutation (sorted_row ignore_0 file_array) (ordered_row ignore_0 file_array).
Proof.
  intros Hb. repeat split.
  - now apply ordered_row_sum_nonzero.
  - now apply ordered_row_sum_all.
  - apply sorted_row_descending.
  - apply sorted_row_perm.
Qed.

Lemma histogram_rows_witness :
  list_sum (ordered_row true [0; 0; 7; 255]%Z) = 2%nat /\
  list_sum (ordered_row false [0; 0; 7; 255]%Z) = 4%nat /\
  Permutation (sorted_row true [0; 0; 7; 255]%Z) (ordered_row true [0; 0; 7; 255]%Z).
Proof.
  assert (Hb : Forall is_byte [0; 0; 7; 255]%Z)
    by (repeat constructor; unfold is_byte; lia).
  pose proof (histogram_rows [0; 0; 7; 255]%Z true Hb)
    as (_ & _ & H1 & H2 & _ & H3).
  split; [exact H1|]. split; [exact H2|exact H3].
Defined.

(** ** C4: the block loop of [section_ent_line] *)

Lemma block_start_S (block_len : Z) (k : nat) :
  block_start block_len (S k) = (block_end block_len k + 1)%Z.
Proof.
  unfold block_start, block_end. lia.
Qed.

(** The loop, started at block [k] with the state the previous blocks leave,
    emits the samples of blocks [k], ..., [k + m - 1] when [k + m] is the
    first block whose start lies beyond the content. *)
Lemma section_blocks_run (content : list Z) (block_len : Z) (m : nat) :
  forall (k : nat) (acc : list R) (fuel : nat),
    (forall j, (k <= j < k + m)%nat ->
               (block_start block_len j <= Z.of_nat (length content))%Z) ->
    (Z.of_nat (length content) < block_start block_len (k + m))%Z ->
    (m < fuel)%nat ->
    section_blocks fuel content block_len (Z.of_nat k + 1)
      (block_start block_len k) (block_prev content block_len k) acc
    = Some (acc ++ map (block_sample content block_len) (seq k m)).
Proof.
  induction m as [|m IH]; intros k acc fuel Hin Hout Hf.
  - destruct fuel as [|fuel]; [lia|]. cbn [section_blocks].
    rewrite Nat.add_0_r in Hout.
    destruct (Z.leb_spec (block_start block_len k) (Z.of_nat (length content)));
      [lia|].
    simpl. now rewrite app_nil_r.
  - destruct fuel as [|fuel]; [lia|]. cbn [section_blocks].
    destruct (Z.leb_spec (block_start block_len k) (Z.of_nat (length content)))
      as [_|Hgt].
    2:{ specialize (Hin k ltac:(lia)). lia. }
    cbv zeta.
    replace (Z.of_nat k + 1 + 1)%Z with (Z.of_nat (S k) + 1)%Z by lia.
    change ((Z.of_nat k + 1) * block_len)%Z with (block_end block_len k).
    rewrite <- block_start_S.
    change (shannon_ent (py_slice content (block_start block_len k)
                                  (block_end block_len k)))
      with (block_raw content block_len k).
    change (block_raw content block_len k)
      with (block_prev content block_len (S k)) at 1.
    rewrite IH.
    + cbn [seq map]. rewrite <- app_assoc. reflexivity.
    + intros j Hj. apply Hin. lia.
    + replace (S k + m)%nat with (k + S m)%nat by lia. exact Hout.
    + lia.
Qed.

(** For a positive block count, [block_count] is the number of rounds of
    the loop: every earlier block starts inside the content (the loop goes
    on) and the next one starts beyond it (the loop stops). *)
Lemma block_count_spec (len : nat) (block_size : Z) :
  (1 <= block_size)%Z ->
  let block_len := ceil_div (Z.of_nat len) block_size in
  let n := block_count len block_len in
  (1 <= n)%nat /\ (n <= len + 1)%nat /\
  (forall k, (k < n)%nat -> (block_start block_len k <= Z.of_nat len)%Z) /\
  (Z.of_nat len < block_start block_len n)%Z.
Proof.
  intros HB block_len n.
  destruct len as [|len'].
  - assert (Hbl : block_len = 0%Z) by apply ceil_div_0_l.
    assert (Hn : n = 1%nat).
    { unfold n, block_count. rewrite Hbl. reflexivity. }
    rewrite Hn, Hbl. split; [lia|]. split; [lia|]. split.
    + intros k Hk. replace k with 0%nat by lia. simpl. lia.
    + simpl. lia.
  - set (len := S len') in *.
    assert (Hbl : (1 <= block_len)%Z) by (apply ceil_div_ge_1; lia).
    set (c := Z.to_nat block_len).
    assert (Hc : (1 <= c)%nat) by (unfold c; lia).
    assert (Hcz : block_len = Z.of_nat c) by (unfold c; lia).
    pose proof (n_chunks_tight len c Hc ltac:(lia)) as Htight.
    pose proof (n_chunks_cover len c Hc) as Hcover.
    assert (Hpos : (1 <= n_chunks len c)%nat)
      by (rewrite n_chunks_pred by lia; lia).
    assert (Hn : n = n_chunks len c) by (unfold n, block_count; fold c; lia).
    rewrite Hn. split; [lia|]. split; [nia|]. split.
    + intros k Hk. destruct k as [|k]; [simpl; lia|].
      unfold block_start. rewrite Hcz.
      assert (S k * c <= (n_chunks len c - 1) * c)%nat
        by (apply Nat.mul_le_mono_r; lia).
      nia.
    + destruct (n_chunks len c) as [|q] eqn:E; [lia|].
      unfold block_start. rewrite Hcz. nia.
Qed.

Lemma section_samples_series (fuel : nat) (content : list Z) (block_size : Z) :
  (1 <= block_size)%Z -> (length content + 1 < fuel)%nat ->
  section_samples fuel content block_size = Done (section_series content block_size).
Proof.
  intros HB Hf. unfold section_samples, section_series.
  destruct (Z.eqb_spec block_size 0) as [|_]; [lia|].
  pose proof (block_count_spec (length content) block_size HB) as Hspec.
  cbv zeta in Hspec. destruct Hspec as (Hn1 & Hn2 & Hin & Hout).
  cbv zeta.
  set (block_len := ceil_div (Z.of_nat (length content)) block_size) in *.
  set (n := block_count (length content) block_len) in *.
  pose proof (section_blocks_run content block_len n 0 [] fuel) as Hrun.
  change (Z.of_nat 0 + 1)%Z with 1%Z in Hrun.
  change (block_start block_len 0) with 0%Z in Hrun.
  change (block_prev content block_len 0) with 0 in Hrun.
  rewrite Hrun; [reflexivity| | |lia].
  - intros j Hj. apply Hin. lia.
  - exact Hout.
Qed.

(** The slice [l[a:b]] for non-negative [a] and [b] in terms of [firstn]
    and [skipn]. *)
Lemma py_slice_nat {A : Type} (l : list A) (a b : nat) :
  py_slice l (Z.of_nat a) (Z.of_nat b) = firstn (b - a) (skipn a l).
Proof.
  unfold py_slice, slice_index.
  destruct (Z.ltb_spec (Z.of_nat a) 0); [lia|].
  destruct (Z.ltb_spec (Z.of_nat b) 0); [lia|].
  destruct (Nat.le_gt_cases (length l) a) as [Hge|Hlt].
  - rewrite (skipn_all2 l (n := a)) by assumption.
    rewrite skipn_all2 by lia. now rewrite !firstn_nil.
  - replace (Z.to_nat (Z.min (Z.of_nat a) (Z.of_nat (length l)))) with a by lia.
    destruct (Nat.le_gt_cases b (length l)) as [Hb|Hb].
    + f_equal. lia.
    + rewrite !firstn_all2; [reflexivity| |]; rewrite length_skipn; lia.
Qed.

Lemma block_start_nat (bl k : nat) :
  block_start (Z.of_nat bl) k
  = Z.of_nat (match k with O => 0 | S _ => k * bl + 1 end).
Proof.
  destruct k as [|k]; [reflexivity|]. unfold block_start. lia.
Qed.

Lemma block_end_nat (bl k : nat) :
  block_end (Z.of_nat bl) k = Z.of_nat ((k + 1) * bl).
Proof.
  unfold block_end. lia.
Qed.

(** Raw entropy of a block, on the bytes of the block. *)
Lemma block_raw_nat (content : list Z) (bl k : nat) :
  block_raw content (Z.of_nat bl) k
  = shannon_ent
      (firstn ((k + 1) * bl - match k with O => 0 | S _ => k * bl + 1 end)
              (skipn (match k with O => 0 | S _ => k * bl + 1 end) content)).
Proof.
  unfold block_raw. now rewrite block_start_nat, block_end_nat, py_slice_nat.
Qed.

Lemma section_ent_line_series (fuel : nat) (sections : list (list Z))
    (block_size : Z) :
  (1 <= block_size)%Z ->
  (forall c, In c sections -> (length c + 1 < fuel)%nat) ->
  section_ent_line fuel sections block_size
  = Done (map (fun c => section_series c block_size) sections).
Proof.
  intros HB. induction sections as [|c rest IH]; intros Hall; [reflexivity|].
  cbn [section_ent_line map].
  rewrite section_samples_series by (try assumption; apply Hall; now left).
  rewrite IH by (intros c' Hc'; apply Hall; now right).
  reflexivity.
Qed.

(** C4.  For a block count [B >= 1] and [block_len = ceil(len/B)], the loop
    of [section_ent_line] over one section returns one sample per block,
    for blocks numbered [k = 0, 1, ...] (loop index [i = k + 1]).  Block [k]
    holds the bytes of the content from index [lo k] up to, not including,
    index [hi k], where [hi k = i * block_len], [lo 0 = 0] and
    [lo (k+1) = hi k + 1]: the byte at index [hi k], when another block
    follows, lies in the content and in no block.  The sample of block [k]
    is the mean of its raw entropy and the raw entropy of block [k - 1]
    ([0] for the first block), which is the median of the two.  The loop
    runs while [lo k <= len] and stops at the first block whose start
    exceeds [len].  Each section of a binary gets the series it would get
    alone: the loop state is fresh for every section. *)
Theorem section_ent_line_blocks (fuel : nat) (content : list Z) (block_size : Z) :
  (1 <= block_size)%Z -> (length content + 1 < fuel)%nat ->
  let len := length content in
  let block_len := Z.to_nat (ceil_div (Z.of_nat len) block_size) in
  let lo := fun k : nat =>
              match k with O => 0%nat | S _ => (k * block_len + 1)%nat end in
  let hi := fun k : nat => ((k + 1) * block_len)%nat in
  let block := fun k : nat =>
                 firstn (hi k - lo k)%nat (skipn (lo k) content) in
  exists samples : list R,
    section_samples fuel content block_size = Done samples /\
    (1 <= length samples)%nat /\
    (forall k, (k < length samples)%nat -> (lo k <= len)%nat) /\
    (len < lo (length samples))%nat /\
    (forall k, lo (S k) = (hi k + 1)%nat) /\
    (forall k, (k < length samples)%nat ->
       nth k samples 0
       = (shannon_ent (block k)
          + match k with O => 0 | S j => shannon_ent (block j) end) / 2) /\
    (forall k, (S k < length samples)%nat ->
       (hi k < len)%nat /\
       forall j, ~ (lo j <= hi k < hi j)%nat) /\
    (forall sections,
        (forall c, In c sections -> (length c + 1 < fuel)%nat) ->
        exists series,
          section_ent_line fuel sections block_size = Done series /\
          length series = length sections /\
          forall i, (i < length sections)%nat ->
            section_samples fuel (nth i sections []) block_size
            = Done (nth i series [])).
Proof.
  intros HB Hf len block_len lo hi block.
  pose proof (block_count_spec (length content) block_size HB) as Hspec.
  cbv zeta in Hspec. destruct Hspec as (Hn1 & Hn2 & Hin & Hout).
  pose proof (ceil_div_nonneg (Z.of_nat (length content)) block_size
                ltac:(lia) HB) as Hbl0.
  assert (Hblz : ceil_div (Z.of_nat (length content)) block_size
                 = Z.of_nat block_len) by (unfold block_len, len; lia).
  rewrite Hblz in Hn1, Hn2, Hin, Hout.
  set (n := block_count (length content) (Z.of_nat block_len)) in *.
  assert (Hlo : forall k, block_start (Z.of_nat block_len) k = Z.of_nat (lo k))
    by (intros k; apply block_start_nat).
  exists (section_series content block_size).
  assert (Hlen : length (section_series content block_size) = n).
  { unfold section_series. rewrite Hblz, length_map, length_seq. reflexivity. }
  rewrite Hlen.
  split; [now apply section_samples_series|].
  split; [exact Hn1|].
  split.
  { intros k Hk. specialize (Hin k Hk). rewrite Hlo in Hin. unfold len. lia. }
  split.
  { rewrite Hlo in Hout. unfold len. lia. }
  split.
  { intros k. unfold lo, hi. lia. }
  split.
  { intros k Hk. unfold section_series. rewrite Hblz. fold n.
    rewrite (nth_indep _ 0 (block_sample content (Z.of_nat block_len) 0))
      by (now rewrite length_map, length_seq).
    rewrite (map_nth (block_sample content (Z.of_nat block_len))).
    rewrite seq_nth by assumption. cbn [Nat.add].
    unfold block_sample. rewrite median2_mean.
    rewrite block_raw_nat. fold (lo k) (hi k) (block k).
    destruct k as [|j]; [reflexivity|].
    cbn [block_prev]. rewrite block_raw_nat. reflexivity. }
  split.
  { intros k Hk.
    assert (Hs : (lo (S k) <= len)%nat).
    { specialize (Hin (S k) Hk). rewrite Hlo in Hin. unfold len. lia. }
    unfold lo, hi in *. split; [lia|].
    intros j [H1 H2]. destruct j as [|j].
    - pose proof (Nat.mul_le_mono_r 1 (k + 1) block_len ltac:(lia)). lia.
    - destruct (Nat.lt_ge_cases (S j) (k + 1)) as [Hlt|Hge].
      + pose proof (Nat.mul_le_mono_r (S j + 1) (k + 1) block_len ltac:(lia)).
        lia.
      + pose proof (Nat.mul_le_mono_r (k + 1) (S j) block_len Hge). lia. }
  intros sections Hall.
  exists (map (fun c => section_series c block_size) sections).
  split; [now apply section_ent_line_series|].
  split; [apply length_map|].
  intros i Hi.
  rewrite (nth_indep _ [] (section_series [] block_size))
    by (now rewrite length_map).
  rewrite (map_nth (fun c => section_series c block_size)).
  apply section_samples_series; [exact HB|].
  apply Hall. now apply nth_In.
Qed.

Lemma section_ent_line_blocks_witness :
  exists samples : list R,
    section_samples 8 [0; 1; 2; 3; 4; 5]%Z 2 = Done samples /\
    (1 <= length samples)%nat /\
    nth 0 samples 0 = (shannon_ent [0; 1; 2]%Z + 0) / 2.
Proof.
  destruct (section_ent_line_blocks 8 [0; 1; 2; 3; 4; 5]%Z 2)
    as (samples & H1 & H2 & _ & _ & _ & H6 & _).
  - lia.
  - simpl. lia.
  - exists samples. split; [exact H1|]. split; [exact H2|].
    apply (H6 0%nat). lia.
Defined.

(** With six bytes and two blocks, the blocks are [content[0:3]] and
    [content[4:6]]: the byte at index 3 belongs to no block. *)
Example section_blocks_skip_one_byte :
  py_slice [10; 11; 12; 13; 14; 15]%Z (block_start 3 0) (block_end 3 0)
  = [10; 11; 12]%Z /\
  py_slice [10; 11; 12; 13; 14; 15]%Z (block_start 3 1) (block_end 3 1)
  = [14; 15]%Z /\
  block_count 6 3 = 2%nat.
Proof. repeat split. Qed.

(** ** Entropy and majorization, in exact arithmetic *)

Lemma INR_ge_1 (c : nat) : (1 <= c)%nat -> 1 <= INR c.
Proof.
  intros H. change 1 with (INR 1). now apply le_INR.
Qed.

Lemma xlnx_0 : xlnx 0 = 0.
Proof. unfold xlnx. simpl. ring. Qed.

Lemma xlnx_nonneg (c : nat) : 0 <= xlnx c.
Proof.
  destruct c as [|c]; [rewrite xlnx_0; lra|].
  unfold xlnx. pose proof (INR_ge_1 (S c) ltac:(lia)) as H1.
  assert (0 <= ln (INR (S c))) by (rewrite <- ln_1; apply ln_le_mono; lra).
  nra.
Qed.

Lemma xlnx_slope_mono (x y : nat) :
  (x <= y)%nat -> xlnx_slope x <= xlnx_slope y.
Proof.
  intros Hxy. destruct x as [|x].
  - destruct y as [|y]; [lra|]. cbn [xlnx_slope].
    pose proof (INR_ge_1 (S y) ltac:(lia)).
    assert (0 <= ln (INR (S y))) by (rewrite <- ln_1; apply ln_le_mono; lra).
    lra.
  - destruct y as [|y]; [lia|]. cbn [xlnx_slope].
    pose proof (INR_ge_1 (S x) ltac:(lia)).
    assert (ln (INR (S x)) <= ln (INR (S y))).
    { apply ln_le_mono; [lra|]. apply le_INR. lia. }
    lra.
Qed.

(** [c ln c] lies above its line of slope [xlnx_slope x] through [x]. *)
Lemma xlnx_tangent (x y : nat) :
  xlnx_slope x * (INR y - INR x) <= xlnx y - xlnx x.
Proof.
  destruct x as [|x].
  - rewrite xlnx_0. cbn [xlnx_slope]. pose proof (xlnx_nonneg y). lra.
  - cbn [xlnx_slope]. pose proof (INR_ge_1 (S x) ltac:(lia)) as Hx.
    set (a := INR (S x)) in *.
    destruct y as [|y].
    + rewrite xlnx_0. unfold xlnx. fold a. simpl INR. lra.
    + pose proof (INR_ge_1 (S y) ltac:(lia)) as Hy.
      unfold xlnx. fold a. set (b := INR (S y)) in *.
      assert (Hq : 0 < b * / a) by (apply Rmult_lt_0_compat;
                                    [lra|apply Rinv_0_lt_compat; lra]).
      pose proof (ln_ge_1_minus_inv (b * / a) Hq) as Hln.
      rewrite ln_mult in Hln by (lra || (apply Rinv_0_lt_compat; lra)).
      rewrite ln_Rinv in Hln by lra.
      rewrite Rinv_mult, Rinv_inv in Hln.
      assert (Hm : b * (1 - / b * a) <= b * (ln b + - ln a))
        by (apply Rmult_le_compat_l; lra).
      replace (b * (1 - / b * a)) with (b - a) in Hm by (field; lra).
      lra.
Qed.

(** Summation by parts: weights that do not increase along the row, against
    differences whose running sums stay non-negative and end at zero. *)
Lemma slope_sum_nonneg (a : list nat) :
  forall (b : list nat) (s G : R),
    length a = length b ->
    0 <= s ->
    StronglySorted ge a ->
    (forall x, In x a -> xlnx_slope x <= G) ->
    (forall k, 0 <= s + INR (list_sum (firstn k b))
                    - INR (list_sum (firstn k a))) ->
    s + INR (list_sum b) - INR (list_sum a) = 0 ->
    0 <= G * s
         + Rsum (map (fun p => xlnx_slope (fst p) * (INR (snd p) - INR (fst p)))
                     (combine a b)).
Proof.
  induction a as [|x a IH]; intros b s G Hlen Hs Hsort HG Hpre Htot.
  - destruct b; [|discriminate]. simpl in *. nra.
  - destruct b as [|y b]; [discriminate|].
    injection Hlen as Hlen.
    inversion Hsort as [|? ? Hsort' Hall]; subst.
    pose proof (Hpre 1%nat) as H1. cbn [firstn list_sum fold_right] in H1.
    rewrite !Nat.add_0_r in H1.
    assert (IHx := IH b (s + INR y - INR x) (xlnx_slope x) Hlen).
    cbn [combine map Rsum fold_right fst snd].
    assert (Hgx : xlnx_slope x <= G) by (apply HG; now left).
    assert (Hrec : 0 <= xlnx_slope x * (s + INR y - INR x)
                        + Rsum (map (fun p => xlnx_slope (fst p)
                                              * (INR (snd p) - INR (fst p)))
                                    (combine a b))).
    { apply IHx.
      - lra.
      - exact Hsort'.
      - intros z Hz. apply xlnx_slope_mono.
        rewrite Forall_forall in Hall. specialize (Hall z Hz). unfold ge in Hall. lia.
      - intros k. specialize (Hpre (S k)).
        rewrite !firstn_cons in Hpre.
        change (list_sum (?u :: ?l)) with (u + list_sum l)%nat in Hpre.
        rewrite !plus_INR in Hpre. lra.
      - change (list_sum (?u :: ?l)) with (u + list_sum l)%nat in Htot.
        rewrite !plus_INR in Htot. lra. }
    change (fold_right Rplus 0 ?l) with (Rsum l).
    nra.
Qed.

Lemma Rsum_combine_diff (f : nat -> R) (a : list nat) :
  forall b, length a = length b ->
    Rsum (map f b) - Rsum (map f a)
    = Rsum (map (fun p => f (snd p) - f (fst p)) (combine a b)).
Proof.
  induction a as [|x a IH]; intros [|y b] Hlen; try discriminate; simpl.
  - lra.
  - injection Hlen as Hlen. rewrite <- (IH b Hlen). lra.
Qed.

(** Karamata's inequality for [c ln c] on rows of counts. *)
Lemma xlnx_sum_majorized (a b : list nat) :
  length a = length b ->
  StronglySorted ge a ->
  majorized_by a b ->
  Rsum (map xlnx a) <= Rsum (map xlnx b).
Proof.
  intros Hlen Hsort [Htot Hpre].
  assert (H0 : 0 <= Rsum (map (fun p => xlnx_slope (fst p)
                                        * (INR (snd p) - INR (fst p)))
                              (combine a b))).
  { pose proof (slope_sum_nonneg a b 0 (xlnx_slope (hd 0%nat a)) Hlen
                  (Rle_refl 0) Hsort) as H.
    rewrite Rmult_0_r in H.
    match type of H with _ -> _ -> _ -> ?C => assert (H' : C) end; [|lra].
    apply H.
    - intros x Hx. apply xlnx_slope_mono.
      destruct a as [|h t]; [contradiction|]. simpl.
      destruct Hx as [->|Hx]; [lia|].
      inversion Hsort as [|? ? _ Hall]; subst.
      rewrite Forall_forall in Hall. specialize (Hall x Hx). unfold ge in Hall. lia.
    - intros k. specialize (Hpre k). apply le_INR in Hpre. lra.
    - rewrite Htot. lra. }
  assert (H1 : Rsum (map (fun p => xlnx_slope (fst p)
                                   * (INR (snd p) - INR (fst p)))
                         (combine a b))
               <= Rsum (map (fun p => xlnx (snd p) - xlnx (fst p)) (combine a b))).
  { apply Rsum_map_le. intros p _. apply xlnx_tangent. }
  rewrite <- (Rsum_combine_diff xlnx a b Hlen) in H1. lra.
Qed.

(** A sum over a duplicate-free list may be taken over any duplicate-free
    list that contains it, when the added terms are zero. *)
Lemma Rsum_filter_zero {A : Type} (f : A -> R) (keep : A -> bool) (V : list A) :
  (forall x, In x V -> keep x = false -> f x = 0) ->
  Rsum (map f (filter keep V)) = Rsum (map f V).
Proof.
  induction V as [|v V IH]; intros Hz; simpl; [reflexivity|].
  assert (IH' := IH (fun x Hx => Hz x (or_intror Hx))).
  destruct (keep v) eqn:E; simpl; rewrite IH'; [reflexivity|].
  rewrite (Hz v (or_introl eq_refl) E). lra.
Qed.

Lemma Rsum_extend (f : Z -> R) (U V : list Z) :
  NoDup U -> NoDup V -> incl U V ->
  (forall x, In x V -> ~ In x U -> f x = 0) ->
  Rsum (map f U) = Rsum (map f V).
Proof.
  intros HU HV Hincl Hz.
  set (keep := fun x => if in_dec Z.eq_dec x U then true else false).
  rewrite <- (Rsum_filter_zero f keep V).
  - apply Rsum_Permutation, Permutation_map, NoDup_Permutation.
    + exact HU.
    + now apply NoDup_filter.
    + intros x. rewrite filter_In. unfold keep.
      destruct (in_dec Z.eq_dec x U) as [Hin|Hnin].
      * split; [intros _; split; [now apply Hincl|reflexivity]|intros _; exact Hin].
      * split; [contradiction|intros [_ H]; discriminate].
  - intros x Hx Hk. apply Hz; [exact Hx|].
    unfold keep in Hk. destruct (in_dec Z.eq_dec x U); [discriminate|assumption].
Qed.

(** [shannon_ent] through the value-indexed histogram: with [n] bytes and
    counts [c], the entropy is [(ln n - (sum c ln c) / n) / ln 256]. *)
Lemma shannon_ent_counts (l : list Z) :
  l <> [] -> Forall is_byte l ->
  shannon_ent l
  = (ln (INR (length l))
     - Rsum (map xlnx (ordered_row false l)) / INR (length l)) / ln 256.
Proof.
  intros Hne Hb.
  assert (Hn : 0 < INR (length l)).
  { apply lt_0_INR. destruct l; [congruence|simpl; lia]. }
  pose proof ln_256_pos as H256.
  set (n := INR (length l)) in *.
  rewrite shannon_ent_unfold. fold n.
  rewrite (Rsum_map_ext _
             (fun x => / (n * ln 256) * xlnx (count_occ Z.eq_dec l x)
                       + - (ln n / (n * ln 256)) * INR (count_occ Z.eq_dec l x))).
  2:{ intros x Hx. cbv zeta.
      destruct (count_pos_of_unique l x Hx) as [Hc _].
      pose proof (INR_ge_1 _ Hc) as Hc1.
      assert (Hln : ln (INR (count_occ Z.eq_dec l x) / n)
                    = ln (INR (count_occ Z.eq_dec l x)) - ln n).
      { unfold Rdiv. rewrite ln_mult by (lra || (apply Rinv_0_lt_compat; lra)).
        rewrite ln_Rinv by lra. ring. }
      rewrite Hln. unfold xlnx. field. lra. }
  rewrite Rsum_map_plus, !Rsum_map_scal, Rsum_map_INR.
  pose proof (counts_sum l) as Hs. unfold np_unique in Hs. simpl in Hs.
  rewrite Hs. fold n.
  rewrite (Rsum_extend (fun x => xlnx (count_occ Z.eq_dec l x))
             (unique_values l) (py_range 0 256)).
  - unfold ordered_row, Counter. cbn [int_of_bool]. rewrite map_map.
    field. lra.
  - apply unique_values_NoDup.
  - apply py_range_NoDup.
  - intros x Hx. apply (proj1 (unique_values_In _ _)) in Hx.
    rewrite Forall_forall in Hb. apply py_range_In. now apply Hb.
  - intros x _ Hnin.
    assert (Hc : count_occ Z.eq_dec l x = 0%nat).
    { apply count_occ_not_In. intros Hin. apply Hnin. now apply unique_values_In. }
    rewrite Hc. apply xlnx_0.
Qed.

Lemma sorted_row_length (ignore_0 : bool) (l : list Z) :
  length (sorted_row ignore_0 l)
  = Z.to_nat (256 - int_of_bool ignore_0).
Proof.
  rewrite (Permutation_length (sorted_row_perm ignore_0 l)).
  unfold ordered_row. now rewrite length_map, py_range_length.
Qed.

Lemma xlnx_sum_sorted_row (l : list Z) :
  Rsum (map xlnx (sorted_row false l)) = Rsum (map xlnx (ordered_row false l)).
Proof.
  apply Rsum_Permutation, Permutation_map, sorted_row_perm.
Qed.

(** Schur-concavity of the entropy formula in exact arithmetic: for two
    byte sequences of the same length, when the rank-ordered histogram of
    [l1] is majorized by that of [l2], the real-valued entropy of [l1] is
    not lower than that of [l2].  This is a fact about the formula only: in
    double precision the last bit of the result depends on the order of the
    counts, so two inputs with the same rank-ordered histogram can differ
    by one unit in the last place in either direction. *)
Lemma shannon_ent_monotone_in_spread (l1 l2 : list Z) :
  length l1 = length l2 ->
  Forall is_byte l1 -> Forall is_byte l2 ->
  more_uniform l1 l2 ->
  shannon_ent l2 <= shannon_ent l1.
Proof.
  intros Hlen Hb1 Hb2 Hmaj.
  destruct l1 as [|x1 t1].
  - destruct l2; [|discriminate]. lra.
  - destruct l2 as [|x2 t2]; [discriminate|].
    set (l1 := x1 :: t1) in *. set (l2 := x2 :: t2) in *.
    rewrite (shannon_ent_counts l1), (shannon_ent_counts l2)
      by (assumption || discriminate).
    rewrite <- Hlen.
    assert (Hn : 0 < INR (length l1)) by (apply lt_0_INR; simpl; lia).
    pose proof ln_256_pos as H256.
    rewrite <- !xlnx_sum_sorted_row.
    pose proof (xlnx_sum_majorized (sorted_row false l1) (sorted_row false l2))
      as Hk.
    assert (Hle : Rsum (map xlnx (sorted_row false l1))
                  <= Rsum (map xlnx (sorted_row false l2))).
    { apply Hk.
      - now rewrite !sorted_row_length.
      - apply sorted_row_descending.
      - exact Hmaj. }
    set (A := Rsum (map xlnx (sorted_row false l1))) in *.
    set (B := Rsum (map xlnx (sorted_row false l2))) in *.
    set (n := INR (length l1)) in *.
    apply Rmult_le_compat_r; [left; now apply Rinv_0_lt_compat|].
    assert (A / n <= B / n)
      by (apply Rmult_le_compat_r; [left; now apply Rinv_0_lt_compat|exact Hle]).
    lra.
Qed.

(** The checker is sound for the partial-sum condition. *)
Lemma prefix_dominated_sound (a : list nat) :
  forall (b : list nat) (sa sb : nat),
    (sa <= sb)%nat ->
    prefix_dominated sa sb a b = true ->
    forall k, (sa + list_sum (firstn k a) <= sb + list_sum (firstn k b))%nat.
Proof.
  induction a as [|x a IH]; intros b sa sb Hs H k.
  - rewrite firstn_nil. simpl. lia.
  - destruct b as [|y b]; [discriminate|].
    cbn [prefix_dominated] in H. apply andb_prop in H. destruct H as [H1 H2].
    apply Nat.leb_le in H1.
    destruct k as [|k]; [simpl; lia|].
    rewrite !firstn_cons.
    change (list_sum (?u :: ?l)) with (u + list_sum l)%nat.
    specialize (IH b (sa + x)%nat (sb + y)%nat H1 H2 k). lia.
Qed.

Lemma majorized_by_check (a b : list nat) :
  list_sum a = list_sum b ->
  prefix_dominated 0 0 a b = true ->
  majorized_by a b.
Proof.
  intros Htot H. split; [exact Htot|].
  intros k. exact (prefix_dominated_sound a b 0 0 (le_n 0) H k).
Qed.

Lemma shannon_ent_monotone_in_spread_witness :
  shannon_ent [7; 7; 7; 9]%Z <= shannon_ent [7; 9; 7; 9]%Z.
Proof.
  apply shannon_ent_monotone_in_spread.
  - reflexivity.
  - repeat constructor; unfold is_byte; lia.
  - repeat constructor; unfold is_byte; lia.
  - apply majorized_by_check; vm_compute; reflexivity.
Defined.

(** * Further properties of the engine *)

(** ** [shannon_ent]: what the value depends on *)





Lemma unique_values_Permutation (l1 l2 : list Z) :
  Permutation l1 l2 -> Permutation (unique_values l1) (unique_values l2).
Proof.
  intros HP. apply NoDup_Permutation; try apply unique_values_NoDup.
  intros x. rewrite !unique_values_In.
  split; apply Permutation_in; [assumption|now apply Permutation_sym].
Qed.

(** X2.  [shannon_ent] depends on the bytes of its input only through how
    often each value occurs: two sequences that are permutations of each
    other have the same entropy. *)
Theorem shannon_ent_permutation (l1 l2 : list Z) :
  Permutation l1 l2 -> shannon_ent l1 = shannon_ent l2.
Proof.
  intros HP. rewrite !shannon_ent_unfold. f_equal.
  rewrite (Rsum_map_ext _ (fun x =>
     let p := INR (count_occ Z.eq_dec l2 x) / INR (length l2) in
     p * ln p / ln 256)).
  - apply Rsum_Permutation, Permutation_map.
    now apply unique_values_Permutation.
  - intros x _. cbv zeta.
    rewrite (proj1 (Permutation_count_occ Z.eq_dec _ _) HP x).
    now rewrite (Permutation_length HP).
Qed.

Lemma shannon_ent_permutation_witness :
  shannon_ent [1; 2; 2; 3]%Z = shannon_ent [2; 3; 1; 2]%Z.
Proof.
  apply shannon_ent_permutation.
  apply perm_trans with (2 :: 1 :: 2 :: 3 :: nil)%Z; [apply perm_swap|].
  apply perm_skip.
  apply perm_trans with (1 :: 3 :: 2 :: nil)%Z;
    [apply perm_skip, perm_swap|apply perm_swap].
Defined.

Lemma unique_values_map (f : Z -> Z) (l : list Z) :
  (forall x y, f x = f y -> x = y) ->
  Permutation (unique_values (map f l)) (map f (unique_values l)).
Proof.
  intros Hinj. apply NoDup_Permutation.
  - apply unique_values_NoDup.
  - apply Finite.Injective_map_NoDup; [exact Hinj|apply unique_values_NoDup].
  - intros y. rewrite unique_values_In, !in_map_iff. split.
    + intros (x & <- & Hx). exists x. split; [reflexivity|].
      now apply unique_values_In.
    + intros (x & <- & Hx). exists x. split; [reflexivity|].
      now apply (proj1 (unique_values_In _ _)).
Qed.

Lemma insert_unique_map (f : Z -> Z) (x : Z) (vs : list Z) :
  (forall a b, (a < b)%Z -> (f a < f b)%Z) ->
  insert_unique (f x) (map f vs) = map f (insert_unique x vs).
Proof.
  intros Hmono. induction vs as [|v vs IH]; [reflexivity|].
  cbn [map insert_unique].
  destruct (Z.ltb_spec x v) as [Hlt|Hge].
  - pose proof (Hmono x v Hlt).
    destruct (Z.ltb_spec (f x) (f v)); [reflexivity|lia].
  - destruct (Z.eqb_spec x v) as [->|Hne].
    + rewrite Z.ltb_irrefl, Z.eqb_refl. reflexivity.
    + assert (Hvx : (v < x)%Z) by lia. pose proof (Hmono v x Hvx).
      destruct (Z.ltb_spec (f x) (f v)); [lia|].
      destruct (Z.eqb_spec (f x) (f v)); [lia|].
      cbn [map]. now rewrite IH.
Qed.

Lemma unique_values_map_increasing (f : Z -> Z) (l : list Z) :
  (forall a b, (a < b)%Z -> (f a < f b)%Z) ->
  unique_values (map f l) = map f (unique_values l).
Proof.
  intros Hmono. induction l as [|x l IH]; [reflexivity|].
  cbn [map unique_values fold_right]. fold (unique_values (map f l)).
  fold (unique_values l). rewrite IH. now apply insert_unique_map.
Qed.

Lemma increasing_injective (f : Z -> Z) :
  (forall a b, (a < b)%Z -> (f a < f b)%Z) ->
  forall x y, f x = f y -> x = y.
Proof.
  intros Hmono x y H.
  destruct (Z.lt_trichotomy x y) as [Hlt|[Heq|Hgt]]; [|assumption|].
  - pose proof (Hmono x y Hlt). lia.
  - pose proof (Hmono y x Hgt). lia.
Qed.

(** X3.  What renaming the values does to the count array [np.unique]
    hands to the entropy formula: an injective renaming (such as XOR with a
    fixed key) only permutes the array, and a strictly increasing renaming
    (such as adding a constant) leaves the array, hence the result of
    [shannon_ent] for every base, exactly as it was. *)
Theorem shannon_ent_relabel (f : Z -> Z) (l : list Z) :
  ((forall x y, f x = f y -> x = y) ->
   Permutation (snd (np_unique (map f l))) (snd (np_unique l))) /\
  ((forall a b, (a < b)%Z -> (f a < f b)%Z) ->
   snd (np_unique (map f l)) = snd (np_unique l) /\
   forall base, shannon_ent_base (map f l) base = shannon_ent_base l base).
Proof.
  assert (Hcount : (forall x y, f x = f y -> x = y) ->
            map (count_occ Z.eq_dec (map f l)) (map f (unique_values l))
            = map (count_occ Z.eq_dec l) (unique_values l)).
  { intros Hinj. rewrite map_map. apply map_ext. intros x.
    symmetry. now apply count_occ_map. }
  split.
  - intros Hinj. unfold np_unique. cbn [snd].
    rewrite <- (Hcount Hinj).
    apply Permutation_map. now apply unique_values_map.
  - intros Hmono.
    pose proof (increasing_injective f Hmono) as Hinj.
    assert (Heq : snd (np_unique (map f l)) = snd (np_unique l)).
    { unfold np_unique. cbn [snd].
      rewrite unique_values_map_increasing by assumption. now apply Hcount. }
    split; [exact Heq|].
    intros base. unfold shannon_ent_base.
    destruct (np_unique (map f l)) as [v1 c1].
    destruct (np_unique l) as [v2 c2]. cbn [snd] in Heq. now subst c1.
Qed.

Lemma lxor_key_injective (key x y : Z) :
  Z.lxor x key = Z.lxor y key -> x = y.
Proof.
  intros H.
  assert (Hx : Z.lxor (Z.lxor x key) key = x)
    by (rewrite Z.lxor_assoc, Z.lxor_nilpotent; apply Z.lxor_0_r).
  assert (Hy : Z.lxor (Z.lxor y key) key = y)
    by (rewrite Z.lxor_assoc, Z.lxor_nilpotent; apply Z.lxor_0_r).
  rewrite <- Hx, <- Hy. now rewrite H.
Qed.

Lemma shannon_ent_relabel_witness :
  Permutation
    (snd (np_unique (map (fun b => Z.lxor b 128) [72; 105; 105; 200; 200; 200]%Z)))
    (snd (np_unique [72; 105; 105; 200; 200; 200]%Z)) /\
  snd (np_unique (map (fun b => (b + 1)%Z) [72; 105; 105; 200; 200; 200]%Z))
  = snd (np_unique [72; 105; 105; 200; 200; 200]%Z).
Proof.
  split.
  - apply (proj1 (shannon_ent_relabel (fun b => Z.lxor b 128)
                    [72; 105; 105; 200; 200; 200]%Z)).
    intros x y. apply lxor_key_injective.
  - apply (proj2 (shannon_ent_relabel (fun b => (b + 1)%Z)
                    [72; 105; 105; 200; 200; 200]%Z)).
    intros a b Hab. lia.
Defined.

(** ** [shannon_ent]: bounds from the number of distinct values *)

Lemma length_pos_INR {A : Type} (l : list A) : l <> [] -> 0 < INR (length l).
Proof.
  intros Hne. apply lt_0_INR. destruct l; [congruence|simpl; lia].
Qed.

(** With [k] distinct values the entropy lies between [0] and
    [ln k / ln 256], whatever integers the sequence holds. *)
Lemma shannon_ent_distinct_bounds (l : list Z) :
  l <> [] ->
  0 <= shannon_ent l <= ln (INR (length (unique_values l))) / ln 256.
Proof.
  intros Hne. rewrite shannon_ent_plnp.
  set (ps := map (fun x => INR (count_occ Z.eq_dec l x) / INR (length l))
                 (unique_values l)).
  assert (Hlen : length ps = length (unique_values l))
    by (unfold ps; apply length_map).
  assert (Hps : ps <> []).
  { unfold ps. intros H. apply map_eq_nil in H.
    now apply (unique_values_nonempty l Hne). }
  destruct (plnp_sum_bounds ps Hps) as [Hlo Hhi].
  - unfold ps. intros p Hin. apply in_map_iff in Hin.
    destruct Hin as (x & <- & Hx). now apply freq_range.
  - unfold ps. now apply freq_sum.
  - rewrite Hlen in Hlo. pose proof ln_256_pos as Hpos.
    set (S := Rsum (map (fun p => p * ln p) ps)) in *.
    set (K := ln (INR (length (unique_values l)))) in *.
    assert (H1 : - (K / ln 256) <= S / ln 256).
    { replace (- (K / ln 256)) with ((- K) / ln 256) by (unfold Rdiv; ring).
      apply Rmult_le_compat_r; [left; now apply Rinv_0_lt_compat|lra]. }
    assert (H2 : S / ln 256 <= 0).
    { apply Rmult_le_reg_r with (ln 256); [assumption|].
      unfold Rdiv. rewrite Rmult_assoc, Rinv_l by lra. lra. }
    lra.
Qed.

Lemma unique_values_le_length (l : list Z) :
  (length (unique_values l) <= length l)%nat.
Proof.
  apply NoDup_incl_length; [apply unique_values_NoDup|].
  intros x Hx. now apply (proj1 (unique_values_In _ _)).
Qed.

(** On byte sequences the bounds are [0] and [1]. *)
Lemma shannon_ent_byte_bounds (l : list Z) :
  Forall is_byte l -> 0 <= shannon_ent l <= 1.
Proof.
  intros Hb. destruct l as [|a t].
  - rewrite shannon_ent_nil. lra.
  - set (l := a :: t) in *.
    assert (Hne : l <> []) by discriminate.
    destruct (shannon_ent_distinct_bounds l Hne) as [H0 H1].
    split; [exact H0|].
    apply Rle_trans with (1 := H1).
    pose proof ln_256_pos as Hpos.
    apply Rmult_le_reg_r with (ln 256); [assumption|].
    unfold Rdiv. rewrite Rmult_assoc, Rinv_l by lra.
    rewrite Rmult_1_r, Rmult_1_l. apply ln_le_mono.
    + apply lt_0_INR. pose proof (unique_values_nonempty l Hne).
      destruct (unique_values l); [congruence|simpl; lia].
    + replace 256 with (INR 256) by (simpl; lra).
      apply le_INR. now apply unique_values_length.
Qed.

(** X4.  A non-empty sequence of fewer than 256 values has an entropy
    strictly below [1]: a chunk or block that short can never show up as
    fully random. *)
Theorem shannon_ent_short_input (l : list Z) :
  l <> [] -> (length l < 256)%nat -> shannon_ent l < 1.
Proof.
  intros Hne Hshort. pose proof ln_256_pos as Hpos.
  pose proof (length_pos_INR l Hne) as Hn.
  destruct (shannon_ent_distinct_bounds l Hne) as [_ H1].
  assert (Hk : ln (INR (length (unique_values l))) <= ln (INR (length l))).
  { apply ln_le_mono.
    - apply lt_0_INR. pose proof (unique_values_nonempty l Hne).
      destruct (unique_values l); [congruence|simpl; lia].
    - apply le_INR, unique_values_le_length. }
  assert (H2 : shannon_ent l <= ln (INR (length l)) / ln 256).
  { apply Rle_trans with (1 := H1).
    apply Rmult_le_compat_r; [left; now apply Rinv_0_lt_compat|exact Hk]. }
  apply Rle_lt_trans with (1 := H2).
  apply Rmult_lt_reg_r with (ln 256); [assumption|].
  unfold Rdiv. rewrite Rmult_assoc, Rinv_l by lra.
  rewrite Rmult_1_r, Rmult_1_l. apply ln_increasing; [assumption|].
  replace 256 with (INR 256) by (simpl; lra). apply lt_INR. exact Hshort.
Qed.

Lemma shannon_ent_short_input_witness : shannon_ent [1; 2; 3]%Z < 1.
Proof.
  apply shannon_ent_short_input.
  - discriminate.
  - simpl. lia.
Defined.

Lemma count_occ_two (l : list Z) (a b : Z) :
  a <> b ->
  (count_occ Z.eq_dec l a + count_occ Z.eq_dec l b <= length l)%nat.
Proof.
  intros Hab. induction l as [|x l IH]; simpl; [lia|].
  destruct (Z.eq_dec x a), (Z.eq_dec x b); subst; try congruence; lia.
Qed.

Lemma Rsum_map_neg {A : Type} (f : A -> R) (l : list A) (a : A) :
  In a l -> f a < 0 -> (forall x, In x l -> f x <= 0) ->
  Rsum (map f l) < 0.
Proof.
  induction l as [|x l IH]; intros Hin Ha Hall; [contradiction|]. simpl.
  assert (Hx : f x <= 0) by (apply Hall; now left).
  assert (Hrest : Rsum (map f l) <= 0).
  { apply Rle_trans with (Rsum (map (fun _ : A => 0) l)).
    - apply Rsum_map_le. intros y Hy. apply Hall. now right.
    - rewrite Rsum_map_const. lra. }
  destruct Hin as [->|Hin]; [lra|].
  assert (Rsum (map f l) < 0) by (apply IH; auto; intros y Hy; apply Hall; now right).
  lra.
Qed.

(** Two different values in the input make the entropy positive. *)
Lemma shannon_ent_two_values (l : list Z) (a b : Z) :
  In a l -> In b l -> a <> b -> 0 < shannon_ent l.
Proof.
  intros Ha Hb Hab.
  assert (Hne : l <> []) by (intros ->; contradiction).
  pose proof (length_pos_INR l Hne) as Hn. pose proof ln_256_pos as Hpos.
  rewrite shannon_ent_unfold.
  set (f := fun x => let p := INR (count_occ Z.eq_dec l x) / INR (length l) in
                     p * ln p / ln 256).
  assert (Hterm : forall x, In x (unique_values l) -> f x <= 0).
  { intros x Hx. unfold f. cbv zeta.
    pose proof (freq_range l x Hx) as Hp. pose proof (ln_nonpos _ Hp) as Hl.
    apply Rmult_le_reg_r with (ln 256); [assumption|].
    unfold Rdiv. rewrite Rmult_assoc, Rinv_l by lra. nra. }
  assert (Hneg : f a < 0).
  { unfold f. cbv zeta.
    assert (Hua : In a (unique_values l)) by now apply unique_values_In.
    destruct (freq_range l a Hua) as [Hp0 _].
    pose proof (count_occ_two l a b Hab) as Hc.
    pose proof (proj1 (count_occ_In Z.eq_dec l b) Hb) as Hcb.
    assert (Hlt : INR (count_occ Z.eq_dec l a) < INR (length l))
      by (apply lt_INR; lia).
    set (p := INR (count_occ Z.eq_dec l a) / INR (length l)) in *.
    assert (Hp1 : p < 1).
    { unfold p. apply Rmult_lt_reg_r with (INR (length l)); [assumption|].
      unfold Rdiv. rewrite Rmult_assoc, Rinv_l by lra. lra. }
    assert (Hln : ln p < 0) by (rewrite <- ln_1; now apply ln_increasing).
    apply Rmult_lt_reg_r with (ln 256); [assumption|].
    unfold Rdiv. rewrite Rmult_assoc, Rinv_l by lra. nra. }
  assert (Rsum (map f (unique_values l)) < 0).
  { apply Rsum_map_neg with a; auto. now apply unique_values_In. }
  lra.
Qed.

(** X5.  On a non-empty sequence [shannon_ent] returns [0] exactly when all
    entries are the same value; as soon as two different values occur the
    result is positive. *)
Theorem shannon_ent_zero_iff_constant (l : list Z) :
  l <> [] ->
  (shannon_ent l = 0 <-> forall x y, In x l -> In y l -> x = y).
Proof.
  intros Hne. split.
  - intros H0 x y Hx Hy. destruct (Z.eq_dec x y) as [|Hxy]; [assumption|].
    pose proof (shannon_ent_two_values l x y Hx Hy Hxy). lra.
  - intros Hall. destruct l as [|a t]; [congruence|].
    assert (Hrep : a :: t = repeat a (length (a :: t))).
    { apply Forall_eq_repeat. apply Forall_forall.
      intros x Hx. apply Hall; [now left|exact Hx]. }
    rewrite Hrep. apply shannon_ent_repeat. simpl. lia.
Qed.

Lemma shannon_ent_zero_iff_constant_witness :
  shannon_ent [4; 4; 4]%Z = 0 /\ shannon_ent [4; 5]%Z <> 0.
Proof.
  split.
  - apply (proj2 (shannon_ent_zero_iff_constant [4; 4; 4]%Z ltac:(discriminate))).
    intros x y Hx Hy. simpl in Hx, Hy. lia.
  - intros H0.
    pose proof (proj1 (shannon_ent_zero_iff_constant [4; 5]%Z ltac:(discriminate))
                  H0 4%Z 5%Z ltac:(now left) ltac:(right; now left)).
    discriminate.
Defined.

(** ** [get_chunk]: what the generator yields for any chunk size *)

Lemma fh_read_split (fh : file) (size : Z) :
  fst (fh_read_bytes fh size) ++ file_rest (snd (fh_read_bytes fh size))
  = file_rest fh.
Proof.
  rewrite fh_read_rest. unfold fh_read_bytes, file_rest. cbn [fst].
  set (rest := skipn (file_pos fh) (file_bytes fh)).
  destruct (size <? 0)%Z.
  - rewrite skipn_all. apply app_nil_r.
  - rewrite length_firstn.
    destruct (Nat.le_gt_cases (Z.to_nat size) (length rest)) as [Hle|Hgt].
    + rewrite Nat.min_l by assumption. apply firstn_skipn.
    + rewrite Nat.min_r by lia. rewrite firstn_all2 by lia.
      rewrite skipn_all. apply app_nil_r.
Qed.

Lemma fh_read_empty (fh : file) (size : Z) :
  size <> 0%Z -> fst (fh_read_bytes fh size) = [] -> file_rest fh = [].
Proof.
  intros Hs He. unfold fh_read_bytes in He. cbn [fst] in He.
  fold (file_rest fh) in He.
  destruct (Z.ltb_spec size 0); [assumption|].
  destruct (file_rest fh) as [|b r]; [reflexivity|].
  destruct (Z.to_nat size) eqn:E; [lia|discriminate].
Qed.

Lemma fh_read_bounded (fh : file) (size : Z) :
  (0 <= size)%Z -> (Z.of_nat (length (fst (fh_read_bytes fh size))) <= size)%Z.
Proof.
  intros Hs. unfold fh_read_bytes. cbn [fst].
  destruct (Z.ltb_spec size 0); [lia|]. rewrite length_firstn. lia.
Qed.

(** What holds of the chunks whenever the generator is exhausted. *)
Lemma get_chunk_invariants (fuel : nat) :
  forall (fh : file) (chunksize : Z) (chunks : list (list Z)),
    get_chunk fuel fh chunksize = Done chunks ->
    (-1 <= chunksize)%Z /\
    Forall (fun c => c <> []) chunks /\
    (chunksize <> 0%Z -> concat chunks = file_rest fh) /\
    (chunksize = 0%Z -> chunks = []) /\
    ((0 < chunksize)%Z ->
     Forall (fun c => (Z.of_nat (length c) <= chunksize)%Z) chunks) /\
    (forall c x, In c chunks -> In x c -> In x (file_rest fh)).
Proof.
  induction fuel as [|fuel IH]; intros fh chunksize chunks H; [discriminate|].
  cbn [get_chunk] in H.
  destruct (Z.lt_ge_cases chunksize (-1)) as [Hlt|Hge].
  { rewrite fh_read_raises in H by assumption. discriminate. }
  rewrite fh_read_ok in H by lia.
  split; [lia|].
  pose proof (fh_read_split fh chunksize) as Hsplit.
  pose proof (fh_read_empty fh chunksize) as Hempty.
  pose proof (fh_read_bounded fh chunksize) as Hbound.
  assert (Hzero : chunksize = 0%Z -> fst (fh_read_bytes fh chunksize) = []).
  { intros ->. unfold fh_read_bytes. cbn [fst]. apply firstn_O. }
  destruct (fh_read_bytes fh chunksize) as [chunk fh']. cbn [fst snd] in *.
  destruct chunk as [|b chunk].
  - injection H as <-.
    split; [constructor|]. split; [intros Hs; symmetry; now apply Hempty|].
    split; [reflexivity|]. split; [constructor|]. intros c x [].
  - destruct (get_chunk fuel fh' chunksize) as [rest| | |] eqn:Hrec;
      try discriminate.
    injection H as <-.
    destruct (IH fh' chunksize rest Hrec) as (_ & Hne & Hcat & Hz & Hlen & Hin).
    split; [constructor; [discriminate|exact Hne]|].
    split.
    { intros Hs. cbn [concat]. rewrite (Hcat Hs). exact Hsplit. }
    split; [intros Hs; specialize (Hzero Hs); discriminate|].
    split.
    { intros Hs. constructor; [apply Hbound; lia|now apply Hlen]. }
    intros c x [<-|Hc] Hx; rewrite <- Hsplit; apply in_or_app.
    + now left.
    + right. now apply (Hin c x).
Qed.

(** X6.  With a chunk size below [-1] the first read of [get_chunk] raises
    [ValueError].  With a chunk size of [-1] or more and enough budget,
    [get_chunk] always ends without error and never yields an empty chunk;
    its chunks put end to end are exactly the bytes that were still unread
    when the chunk size is not 0, it yields nothing when the chunk size is
    0, and with a positive chunk size no chunk is longer than the chunk
    size. *)
Theorem get_chunk_yields (fuel : nat) (fh : file) (chunksize : Z) :
  ((chunksize < -1)%Z -> (1 <= fuel)%nat ->
   get_chunk fuel fh chunksize = ValueError) /\
  ((-1 <= chunksize)%Z -> (length (file_rest fh) < fuel)%nat ->
   exists chunks,
     get_chunk fuel fh chunksize = Done chunks /\
     Forall (fun c => c <> []) chunks /\
     (chunksize <> 0%Z -> concat chunks = file_rest fh) /\
     (chunksize = 0%Z -> chunks = []) /\
     ((0 < chunksize)%Z ->
      Forall (fun c => (Z.of_nat (length c) <= chunksize)%Z) chunks)).
Proof.
  split; [apply get_chunk_raises|].
  intros Hs Hf.
  destruct (get_chunk_terminates fuel fh chunksize Hs Hf) as [chunks H].
  exists chunks. split; [exact H|].
  destruct (get_chunk_invariants fuel fh chunksize chunks H)
    as (_ & H1 & H2 & H3 & H4 & _).
  repeat split; assumption.
Qed.

Lemma get_chunk_yields_witness :
  get_chunk 1 (mkFile [1; 2; 3; 4; 5]%Z 2) (-2) = ValueError /\
  exists chunks,
    get_chunk 4 (mkFile [1; 2; 3; 4; 5]%Z 2) 2 = Done chunks /\
    Forall (fun c => c <> []) chunks /\
    concat chunks = [3; 4; 5]%Z.
Proof.
  split.
  - apply (proj1 (get_chunk_yields 1 (mkFile [1; 2; 3; 4; 5]%Z 2) (-2))); lia.
  - destruct (proj2 (get_chunk_yields 4 (mkFile [1; 2; 3; 4; 5]%Z 2) 2))
      as (chunks & H1 & H2 & H3 & _).
    + lia.
    + simpl. lia.
    + exists chunks. split; [exact H1|]. split; [exact H2|].
      apply H3. discriminate.
Defined.

(** ** [bin_ent]: edge cases of the chunk count *)

Lemma bin_ent_of_chunks (fuel : nat) (data : list Z) (chunks : Z)
    (ibytes : ibytes_t) (cs : list (list Z)) :
  bin_ent_chunks fuel data chunks = Done cs ->
  bin_ent fuel data chunks ibytes
  = Done (map shannon_ent cs,
          byte_ranges (fold_left (bin_ent_step ibytes) cs (bin_ent_init ibytes))).
Proof.
  intros H. unfold bin_ent. rewrite H, bin_ent_loop_samples. reflexivity.
Qed.

Lemma bin_ent_chunks_invariants (fuel : nat) (data : list Z) (chunks : Z)
    (cs : list (list Z)) :
  bin_ent_chunks fuel data chunks = Done cs ->
  Forall (fun c => c <> []) cs /\
  (forall c x, In c cs -> In x c -> In x data).
Proof.
  unfold bin_ent_chunks. destruct (chunks =? 0)%Z; [discriminate|].
  intros H.
  destruct (get_chunk_invariants _ _ _ _ H) as (_ & H1 & _ & _ & _ & H5).
  split; [exact H1|exact H5].
Qed.

(** X7.  Edge cases of [bin_ent]: a chunk count of [0] raises
    [ZeroDivisionError] whatever the file; an empty file with a non-zero
    chunk count is not an error and gives no sample and an empty series for
    every label. *)
Theorem bin_ent_edge_cases :
  (forall fuel data ibytes, bin_ent fuel data 0 ibytes = ZeroDivisionError) /\
  (forall fuel chunks ibytes,
      chunks <> 0%Z -> (1 <= fuel)%nat ->
      bin_ent fuel [] chunks ibytes
      = Done ([], map (fun kv => (fst kv, [])) ibytes)).
Proof.
  split; [reflexivity|].
  intros fuel chunks ibytes HN Hf.
  destruct fuel as [|fuel]; [lia|].
  unfold bin_ent, bin_ent_chunks.
  destruct (Z.eqb_spec chunks 0); [contradiction|].
  change (Z.of_nat (length (@nil Z))) with 0%Z. rewrite ceil_div_0_l.
  cbn [get_chunk]. rewrite fh_read_ok by lia.
  unfold fh_read_bytes, open_rb. cbn [file_pos file_bytes skipn length].
  cbn [Z.ltb Z.compare Z.to_nat firstn].
  cbn [fold_left bin_ent_init shannon_samples byte_ranges].
  destruct ibytes; reflexivity.
Qed.

Lemma bin_ent_edge_cases_witness :
  bin_ent 1 [] 750 [("0's"%string, [0%Z])]
  = Done ([], [("0's"%string, [])]).
Proof.
  apply (proj2 bin_ent_edge_cases 1%nat 750%Z [("0's"%string, [0%Z])]).
  - discriminate.
  - lia.
Defined.

Lemma ceil_div_neg (a b : Z) :
  (b < 0)%Z -> ceil_div a b = (- (a / - b))%Z.
Proof.
  intros Hb. unfold ceil_div. f_equal.
  rewrite <- (Z.opp_involutive b) at 1. apply Z.div_opp_opp. lia.
Qed.

Lemma get_chunk_read_all (fuel : nat) (data : list Z) :
  data <> [] -> (2 <= fuel)%nat ->
  get_chunk fuel (open_rb data) (-1) = Done [data].
Proof.
  intros Hne Hf. destruct fuel as [|[|fuel]]; try lia.
  cbn [get_chunk]. rewrite fh_read_ok by lia.
  unfold fh_read_bytes at 1. unfold open_rb.
  cbn [file_pos file_bytes skipn Z.ltb Z.compare Z.opp].
  destruct data as [|b t]; [congruence|].
  rewrite fh_read_ok by lia. unfold fh_read_bytes.
  cbn [file_pos file_bytes Z.ltb Z.compare Z.opp Nat.add].
  rewrite skipn_all. reflexivity.
Qed.

(** X8.  A negative chunk count is not rejected when it is given.  For a
    non-empty file of [L] bytes the chunk size becomes [-q] with
    [q = floor(L / -chunks)]: when [q = 0] the chunk size is 0 and there is
    no chunk at all; when [q = 1] the chunk size is -1, [read] returns
    everything and the whole file is the only chunk; when [q >= 2] the
    first [read] raises [ValueError]. *)
Theorem bin_ent_negative_chunk_count (fuel : nat) (data : list Z) (chunks : Z) :
  data <> [] -> (chunks < 0)%Z -> (2 <= fuel)%nat ->
  bin_ent_chunks fuel data chunks
  = (if (Z.of_nat (length data) / - chunks =? 0)%Z then Done []
     else if (Z.of_nat (length data) / - chunks =? 1)%Z then Done [data]
     else ValueError).
Proof.
  intros Hne HN Hf.
  destruct fuel as [|[|fuel]]; try lia.
  unfold bin_ent_chunks. destruct (Z.eqb_spec chunks 0); [lia|].
  rewrite ceil_div_neg by assumption.
  assert (Hq0 : (0 <= Z.of_nat (length data) / - chunks)%Z)
    by (apply Z.div_pos; lia).
  set (q := (Z.of_nat (length data) / - chunks)%Z) in *.
  destruct (Z.eqb_spec q 0) as [Hz|Hnz].
  - rewrite Hz. cbn [get_chunk Z.opp]. rewrite fh_read_ok by lia.
    unfold fh_read_bytes, open_rb. cbn [file_pos file_bytes skipn].
    reflexivity.
  - destruct (Z.eqb_spec q 1) as [H1|Hn1].
    + rewrite H1. apply get_chunk_read_all; [assumption|lia].
    + apply get_chunk_raises; lia.
Qed.

Lemma bin_ent_negative_chunk_count_witness :
  bin_ent_chunks 2 [1; 2; 3]%Z (-5) = Done [] /\
  bin_ent_chunks 2 [1; 2; 3]%Z (-2) = Done [[1; 2; 3]%Z] /\
  bin_ent_chunks 2 [1; 2; 3]%Z (-1) = ValueError.
Proof.
  split; [|split].
  - apply (bin_ent_negative_chunk_count 2 [1; 2; 3]%Z (-5)); try lia. discriminate.
  - apply (bin_ent_negative_chunk_count 2 [1; 2; 3]%Z (-2)); try lia. discriminate.
  - apply (bin_ent_negative_chunk_count 2 [1; 2; 3]%Z (-1)); try lia. discriminate.
Defined.

(** ** [bin_ent]: the series it returns *)

Lemma ceil_div_mul_bounds (a b : Z) :
  (0 < b)%Z ->
  (a <= b * ceil_div a b < a + b)%Z.
Proof.
  intros Hb. rewrite ceil_div_pos by assumption.
  pose proof (Z.div_mod (a + b - 1) b ltac:(lia)) as Hd.
  pose proof (Z.mod_pos_bound (a + b - 1) b Hb) as Hm. lia.
Qed.

(** Covering [r] bytes with chunks of [ceil(r/N)] bytes takes at most [N]
    chunks. *)
Lemma n_chunks_at_most (r : nat) (N : Z) :
  (1 <= r)%nat -> (1 <= N)%Z ->
  let c := Z.to_nat (ceil_div (Z.of_nat r) N) in
  (1 <= n_chunks r c)%nat /\ (Z.of_nat (n_chunks r c) <= N)%Z.
Proof.
  intros Hr HN c.
  pose proof (ceil_div_ge_1 (Z.of_nat r) N ltac:(lia) HN) as Hc1.
  pose proof (ceil_div_mul_bounds (Z.of_nat r) N ltac:(lia)) as Hb.
  assert (Hc : (1 <= c)%nat) by (unfold c; lia).
  assert (Hcz : Z.of_nat c = ceil_div (Z.of_nat r) N) by (unfold c; lia).
  rewrite <- Hcz in Hb.
  pose proof (n_chunks_tight r c Hc Hr) as Ht.
  split; [rewrite n_chunks_pred by assumption; lia|].
  destruct (n_chunks r c) as [|q]; [lia|].
  replace (S q - 1)%nat with q in Ht by lia. nia.
Qed.

(** X9.  For a non-empty file and a chunk count [N >= 1], [bin_ent] returns
    at least one sample and never more than [N]. *)
Theorem bin_ent_sample_count (fuel : nat) (data : list Z) (N : Z)
    (ibytes : ibytes_t) :
  data <> [] -> (1 <= N)%Z -> (length data < fuel)%nat ->
  exists samples ranges,
    bin_ent fuel data N ibytes = Done (samples, ranges) /\
    (1 <= length samples)%nat /\ (Z.of_nat (length samples) <= N)%Z.
Proof.
  intros Hne HN Hf.
  destruct (bin_ent_chunks_pos fuel data N Hne HN Hf) as [Hc Hcs].
  eexists. eexists. split; [apply (bin_ent_of_chunks _ _ _ _ _ Hcs)|].
  rewrite length_map, chunks_of_length.
  apply n_chunks_at_most; [|exact HN].
  destruct data; [congruence|simpl; lia].
Qed.

Lemma bin_ent_sample_count_witness :
  exists samples ranges,
    bin_ent 11 [0; 1; 2; 3; 4; 5; 6; 7; 8; 9]%Z 7 [] = Done (samples, ranges) /\
    (1 <= length samples)%nat /\ (Z.of_nat (length samples) <= 7)%Z.
Proof.
  apply (bin_ent_sample_count 11 [0; 1; 2; 3; 4; 5; 6; 7; 8; 9]%Z 7 []).
  - discriminate.
  - lia.
  - simpl. lia.
Defined.

(** X10.  On a file of bytes every entropy sample [bin_ent] returns lies in
    [0, 1], for every chunk count [>= 1]. *)
Theorem bin_ent_samples_in_unit_interval (fuel : nat) (data : list Z)
    (chunks : Z) (ibytes : ibytes_t) :
  Forall is_byte data -> (1 <= chunks)%Z -> (length data < fuel)%nat ->
  exists samples ranges,
    bin_ent fuel data chunks ibytes = Done (samples, ranges) /\
    Forall (fun s => 0 <= s <= 1) samples.
Proof.
  intros Hb HN Hf.
  destruct (bin_ent_chunks_terminates fuel data chunks HN Hf) as [cs Hcs].
  eexists. eexists. split; [apply (bin_ent_of_chunks _ _ _ _ _ Hcs)|].
  destruct (bin_ent_chunks_invariants _ _ _ _ Hcs) as [_ Hin].
  apply Forall_forall. intros s Hs. apply in_map_iff in Hs.
  destruct Hs as (c & <- & Hc). apply shannon_ent_byte_bounds.
  apply Forall_forall. intros x Hx.
  rewrite Forall_forall in Hb. apply Hb. now apply (Hin c x).
Qed.

Lemma bin_ent_samples_in_unit_interval_witness :
  exists samples ranges,
    bin_ent 4 [7; 200; 7]%Z 2 [] = Done (samples, ranges) /\
    Forall (fun s => 0 <= s <= 1) samples.
Proof.
  apply (bin_ent_samples_in_unit_interval 4 [7; 200; 7]%Z 2 []).
  - repeat constructor; unfold is_byte; lia.
  - discriminate.
  - simpl. lia.
Defined.

Lemma append_to_keys (label : string) (v : R) (d : list (string * list R)) :
  map fst (append_to label v d) = map fst d.
Proof.
  induction d as [|[k s] t IH]; simpl; [reflexivity|].
  destruct (String.eqb k label); simpl; [reflexivity|now rewrite IH].
Qed.

Lemma bin_ent_step_keys (ibytes : ibytes_t) (st : ent_state) (chunk : list Z) :
  map fst (byte_ranges (bin_ent_step ibytes st chunk)) = map fst (byte_ranges st).
Proof.
  unfold bin_ent_step. cbn [byte_ranges].
  destruct (0 <? length ibytes)%nat; [|reflexivity].
  generalize (byte_ranges st). induction ibytes as [|[k r] t IH]; intros d;
    [reflexivity|].
  cbn [fold_left]. rewrite IH. apply append_to_keys.
Qed.

Lemma bin_ent_loop_keys (ibytes : ibytes_t) (cs : list (list Z)) (st : ent_state) :
  map fst (byte_ranges (fold_left (bin_ent_step ibytes) cs st))
  = map fst (byte_ranges st).
Proof.
  revert st. induction cs as [|c cs IH]; intros st; [reflexivity|].
  cbn [fold_left]. rewrite IH. apply bin_ent_step_keys.
Qed.

Lemma bin_ent_init_keys (ibytes : ibytes_t) :
  map fst (byte_ranges (bin_ent_init ibytes)) = map fst ibytes.
Proof.
  unfold bin_ent_init. cbn [byte_ranges].
  destruct ibytes as [|kv t]; [reflexivity|].
  change (0 <? length (kv :: t))%nat with true. cbv iota.
  rewrite map_map. reflexivity.
Qed.

Lemma dict_get_key {B : Type} (label : string) (d : list (string * B)) (v : B) :
  dict_get label d = Some v -> In label (map fst d).
Proof.
  induction d as [|[k w] t IH]; simpl; [discriminate|].
  destruct (String.eqb_spec k label) as [->|Hk]; [now left|].
  intros H. right. now apply IH.
Qed.

(** The series of a tracked group after the whole loop. *)
Lemma bin_ent_series (fuel : nat) (data : list Z) (chunks : Z)
    (ibytes : ibytes_t) (cs : list (list Z)) (label : string) (b_range : list Z) :
  bin_ent_chunks fuel data chunks = Done cs ->
  NoDup (map fst ibytes) -> In (label, b_range) ibytes ->
  dict_get label
    (byte_ranges (fold_left (bin_ent_step ibytes) cs (bin_ent_init ibytes)))
  = Some (map (fun chunk => group_percentage chunk b_range) cs).
Proof.
  intros _ Hnd Hin.
  rewrite (bin_ent_loop_ranges ibytes label b_range cs _ []); auto.
  now apply dict_get_init with (b_range := b_range).
Qed.

(** X11.  The percentage series [bin_ent] returns carry exactly the labels
    of [ibytes], in their order, and every series is aligned with the
    entropy samples: it has one entry per sample. *)
Theorem bin_ent_series_aligned (fuel : nat) (data : list Z) (chunks : Z)
    (ibytes : ibytes_t) :
  (1 <= chunks)%Z -> (length data < fuel)%nat -> NoDup (map fst ibytes) ->
  exists samples ranges,
    bin_ent fuel data chunks ibytes = Done (samples, ranges) /\
    map fst ranges = map fst ibytes /\
    (forall label, In label (map fst ibytes) ->
       exists series, dict_get label ranges = Some series) /\
    (forall label series,
        dict_get label ranges = Some series -> length series = length samples).
Proof.
  intros HN Hf Hnd.
  destruct (bin_ent_chunks_terminates fuel data chunks HN Hf) as [cs Hcs].
  eexists. eexists. split; [apply (bin_ent_of_chunks _ _ _ _ _ Hcs)|].
  assert (Hkeys : map fst (byte_ranges (fold_left (bin_ent_step ibytes) cs
                                          (bin_ent_init ibytes)))
                  = map fst ibytes)
    by (rewrite bin_ent_loop_keys; apply bin_ent_init_keys).
  split; [exact Hkeys|]. split.
  - intros label Hl. apply in_map_iff in Hl. destruct Hl as ([k r] & <- & Hkr).
    eexists. apply (bin_ent_series _ _ _ _ _ _ _ Hcs Hnd Hkr).
  - intros label series Hget.
    pose proof (dict_get_key _ _ _ Hget) as Hl. rewrite Hkeys in Hl.
    apply in_map_iff in Hl. destruct Hl as ([k r] & Hk & Hkr). simpl in Hk. subst k.
    rewrite (bin_ent_series _ _ _ _ _ _ _ Hcs Hnd Hkr) in Hget.
    injection Hget as <-. now rewrite !length_map.
Qed.

Lemma bin_ent_series_aligned_witness :
  exists samples ranges,
    bin_ent 5 [0; 65; 0; 66]%Z 2 [("0's"%string, [0%Z]); ("A"%string, [65%Z])]
    = Done (samples, ranges) /\
    map fst ranges = ["0's"%string; "A"%string] /\
    (forall label series,
        dict_get label ranges = Some series -> length series = length samples).
Proof.
  destruct (bin_ent_series_aligned 5 [0; 65; 0; 66]%Z 2
              [("0's"%string, [0%Z]); ("A"%string, [65%Z])])
    as (samples & ranges & H1 & H2 & _ & H4).
  - discriminate.
  - simpl. lia.
  - simpl. constructor.
    + intros [H|[]]. discriminate.
    + constructor; [intros []|constructor].
  - exists samples, ranges. split; [exact H1|]. split; [exact H2|exact H4].
Defined.

(** ** [bin_ent]: range of the percentages *)

(** Counts of pairwise different values add up to at most the length. *)
Lemma list_sum_count_occ_le (vs l : list Z) :
  NoDup vs ->
  (list_sum (map (count_occ Z.eq_dec l) vs) <= length l)%nat.
Proof.
  intros Hnd. induction l as [|a l IH].
  - clear. induction vs as [|v vs IH]; simpl; auto.
  - rewrite (map_ext _ (fun x => ((if Z.eq_dec a x then 1 else 0)
                                   + count_occ Z.eq_dec l x)%nat)).
    2:{ intros x. simpl. destruct (Z.eq_dec a x); reflexivity. }
    rewrite list_sum_map_plus, list_sum_indicator.
    pose proof (proj1 (NoDup_count_occ Z.eq_dec vs) Hnd a).
    simpl. lia.
Qed.

Lemma group_percentage_range (chunk b_range : list Z) :
  chunk <> [] -> NoDup b_range ->
  0 <= group_percentage chunk b_range <= 100.
Proof.
  intros Hne Hnd. unfold group_percentage. rewrite occurance_of_sum.
  pose proof (length_pos_INR chunk Hne) as Hn.
  pose proof (list_sum_count_occ_le b_range chunk Hnd) as Hle.
  apply le_INR in Hle. unfold Counter.
  set (occ := INR (list_sum (map (count_occ Z.eq_dec chunk) b_range))) in *.
  assert (H0 : 0 <= occ) by apply pos_INR.
  assert (Hq : 0 <= occ / INR (length chunk) <= 1).
  { split.
    - apply Rmult_le_pos; [assumption|left; now apply Rinv_0_lt_compat].
    - apply Rmult_le_reg_r with (INR (length chunk)); [assumption|].
      unfold Rdiv. rewrite Rmult_assoc, Rinv_l by lra. lra. }
  lra.
Qed.

(** X12.  When the byte values listed for a group are pairwise different,
    every percentage [bin_ent] records for that group lies between 0 and
    100; the division by the chunk length is never a division by zero,
    because the loop only sees non-empty chunks. *)
Theorem bin_ent_percentage_range (fuel : nat) (data : list Z) (chunks : Z)
    (ibytes : ibytes_t) (label : string) (b_range : list Z) :
  (1 <= chunks)%Z -> (length data < fuel)%nat ->
  NoDup (map fst ibytes) -> In (label, b_range) ibytes -> NoDup b_range ->
  exists cs samples ranges series,
    bin_ent_chunks fuel data chunks = Done cs /\
    Forall (fun c => length c <> 0%nat) cs /\
    bin_ent fuel data chunks ibytes = Done (samples, ranges) /\
    dict_get label ranges = Some series /\
    Forall (fun v => 0 <= v <= 100) series.
Proof.
  intros HN Hf Hnd Hin Hb.
  destruct (bin_ent_chunks_terminates fuel data chunks HN Hf) as [cs Hcs].
  destruct (bin_ent_chunks_invariants _ _ _ _ Hcs) as [Hne _].
  exists cs. eexists. eexists. eexists.
  split; [exact Hcs|]. split.
  { eapply Forall_impl; [|exact Hne]. intros c Hc Hl.
    apply Hc. now apply length_zero_iff_nil. }
  split; [apply (bin_ent_of_chunks _ _ _ _ _ Hcs)|].
  split; [apply (bin_ent_series _ _ _ _ _ _ _ Hcs Hnd Hin)|].
  apply Forall_forall. intros v Hv. apply in_map_iff in Hv.
  destruct Hv as (c & <- & Hc). apply group_percentage_range; [|exact Hb].
  rewrite Forall_forall in Hne. now apply Hne.
Qed.

Lemma bin_ent_percentage_range_witness :
  exists cs samples ranges series,
    bin_ent_chunks 4 [44; 0; 144]%Z 2 = Done cs /\
    Forall (fun c => length c <> 0%nat) cs /\
    bin_ent 4 [44; 0; 144]%Z 2 [("Exploit"%string, [44; 144]%Z)]
    = Done (samples, ranges) /\
    dict_get "Exploit"%string ranges = Some series /\
    Forall (fun v => 0 <= v <= 100) series.
Proof.
  apply (bin_ent_percentage_range 4 [44; 0; 144]%Z 2
           [("Exploit"%string, [44; 144]%Z)] "Exploit"%string [44; 144]%Z).
  - discriminate.
  - simpl. lia.
  - simpl. constructor; [intros []|constructor].
  - now left.
  - constructor; [intros [H|[]]; discriminate|].
    constructor; [intros []|constructor].
Defined.

Lemma group_percentage_constant (b : Z) (m : nat) :
  (1 <= m)%nat -> group_percentage (repeat b m) [b] = 100.
Proof.
  intros Hm. unfold group_percentage, occurance_of, Counter. cbn [fold_left].
  rewrite count_occ_repeat_eq, repeat_length by reflexivity.
  assert (0 < INR m) by (apply lt_0_INR; lia).
  simpl Nat.add. field. lra.
Qed.

(** X13.  On a file that repeats a single byte value [b], whatever its
    length and the chunk count [>= 1], every entropy sample is [0] and a
    group whose list is [[b]] is recorded at [100] percent in every chunk. *)
Theorem bin_ent_constant_file (fuel : nat) (b : Z) (n : nat) (chunks : Z)
    (ibytes : ibytes_t) (label : string) :
  (1 <= chunks)%Z -> (n < fuel)%nat ->
  NoDup (map fst ibytes) -> In (label, [b]) ibytes ->
  exists samples ranges series,
    bin_ent fuel (repeat b n) chunks ibytes = Done (samples, ranges) /\
    Forall (fun s => s = 0) samples /\
    dict_get label ranges = Some series /\
    Forall (fun v => v = 100) series /\
    length series = length samples.
Proof.
  intros HN Hf Hnd Hin.
  assert (Hf' : (length (repeat b n) < fuel)%nat) by now rewrite repeat_length.
  destruct (bin_ent_chunks_terminates fuel (repeat b n) chunks HN Hf') as [cs Hcs].
  destruct (bin_ent_chunks_invariants _ _ _ _ Hcs) as [Hne Hsub].
  assert (Hrep : forall c, In c cs ->
                   c = repeat b (length c) /\ (1 <= length c)%nat).
  { intros c Hc. split.
    - apply Forall_eq_repeat. apply Forall_forall. intros x Hx.
      symmetry. apply (repeat_spec n b x). now apply (Hsub c x).
    - rewrite Forall_forall in Hne. specialize (Hne c Hc).
      destruct c; [congruence|simpl; lia]. }
  eexists. eexists. eexists.
  split; [apply (bin_ent_of_chunks _ _ _ _ _ Hcs)|].
  split.
  { apply Forall_forall. intros s Hs. apply in_map_iff in Hs.
    destruct Hs as (c & <- & Hc). destruct (Hrep c Hc) as [Hr Hl].
    rewrite Hr. now apply shannon_ent_repeat. }
  split; [apply (bin_ent_series _ _ _ _ _ _ _ Hcs Hnd Hin)|].
  split; [|now rewrite !length_map].
  apply Forall_forall. intros v Hv. apply in_map_iff in Hv.
  destruct Hv as (c & <- & Hc). destruct (Hrep c Hc) as [Hr Hl].
  rewrite Hr. now apply group_percentage_constant.
Qed.

Lemma bin_ent_constant_file_witness :
  exists samples ranges series,
    bin_ent 1001 (repeat 0%Z 1000) 10 [("0's"%string, [0%Z])]
    = Done (samples, ranges) /\
    Forall (fun s => s = 0) samples /\
    dict_get "0's"%string ranges = Some series /\
    Forall (fun v => v = 100) series /\
    length series = length samples.
Proof.
  apply (bin_ent_constant_file 1001 0%Z 1000 10 [("0's"%string, [0%Z])]
           "0's"%string).
  - discriminate.
  - lia.
  - simpl. constructor; [intros []|constructor].
  - now left.
Defined.

(** X14.  The unrounded chunk size [nr_chunksize = fs / chunks] that labels
    the x axis and places the section and entry point markers is at most
    the chunk size the file is really read with, and less than one byte
    below it. *)
Theorem nr_chunksize_vs_chunksize (fs chunks : Z) :
  (1 <= chunks)%Z ->
  nr_chunksize fs chunks <= IZR (ceil_div fs chunks)
  /\ IZR (ceil_div fs chunks) < nr_chunksize fs chunks + 1.
Proof.
  intros HN. unfold nr_chunksize.
  destruct (ceil_div_mul_bounds fs chunks ltac:(lia)) as [H1 H2].
  apply IZR_le in H1. apply IZR_lt in H2.
  rewrite mult_IZR in H1, H2. rewrite plus_IZR in H2.
  assert (Hc : 0 < IZR chunks) by (apply IZR_lt; lia).
  set (c := IZR (ceil_div fs chunks)) in *.
  split.
  - apply Rmult_le_reg_r with (IZR chunks); [assumption|].
    unfold Rdiv. rewrite Rmult_assoc, Rinv_l by lra. lra.
  - apply Rmult_lt_reg_r with (IZR chunks); [assumption|].
    rewrite Rmult_plus_distr_r.
    unfold Rdiv. rewrite Rmult_assoc, Rinv_l by lra. lra.
Qed.

Lemma nr_chunksize_vs_chunksize_witness :
  nr_chunksize 1000 750 <= IZR (ceil_div 1000 750)
  /\ IZR (ceil_div 1000 750) < nr_chunksize 1000 750 + 1.
Proof.
  apply nr_chunksize_vs_chunksize. lia.
Defined.

(** ** [section_ent_line]: what the blocks hold *)

Lemma py_slice_length {A : Type} (l : list A) (a b : Z) :
  (0 <= a)%Z -> (0 <= b)%Z ->
  length (py_slice l a b)
  = Z.to_nat (Z.min b (Z.of_nat (length l)) - Z.min a (Z.of_nat (length l))).
Proof.
  intros Ha Hb. unfold py_slice, slice_index.
  destruct (Z.ltb_spec a 0); [lia|]. destruct (Z.ltb_spec b 0); [lia|].
  rewrite length_firstn, length_skipn. lia.
Qed.

Lemma py_slice_incl {A : Type} (l : list A) (a b : Z) (x : A) :
  In x (py_slice l a b) -> In x l.
Proof.
  unfold py_slice. intros H.
  set (n := Z.to_nat (slice_index (Z.of_nat (length l)) a)) in *.
  rewrite <- (firstn_skipn n l). apply in_or_app. right.
  set (m := Z.to_nat _) in H.
  rewrite <- (firstn_skipn m (skipn n l)). apply in_or_app. now left.
Qed.

Lemma py_slice_empty {A : Type} (l : list A) (a b : Z) :
  (0 <= b)%Z -> (b <= a)%Z -> py_slice l a b = [].
Proof.
  intros Hb Hba. unfold py_slice.
  assert (H : Z.to_nat (slice_index (Z.of_nat (length l)) b
                        - slice_index (Z.of_nat (length l)) a) = 0%nat).
  { unfold slice_index. destruct (Z.ltb_spec a 0); [lia|].
    destruct (Z.ltb_spec b 0); lia. }
  cbv zeta. rewrite H. reflexivity.
Qed.

Lemma py_slice_first {A : Type} (x : A) (t : list A) :
  py_slice (x :: t) 0 1 = [x].
Proof.
  unfold py_slice, slice_index. cbn [Z.ltb Z.compare].
  replace (Z.min 0 _) with 0%Z by lia.
  replace (Z.min 1 (Z.of_nat (length (x :: t)))) with 1%Z by (simpl length; lia).
  reflexivity.
Qed.

Lemma map_seq_const {B : Type} (f : nat -> B) (v : B) (n : nat) :
  forall s, (forall k, f k = v) -> map f (seq s n) = repeat v n.
Proof.
  induction n as [|n IH]; intros s Hf; [reflexivity|].
  simpl. now rewrite Hf, IH.
Qed.

(** X15.  A non-empty section of at most [block_size] bytes gets
    [block_len = 1]: the first block holds one byte and all later blocks are
    empty, so the whole series is zero, with one sample per byte. *)
Theorem section_small_is_flat (fuel : nat) (content : list Z) (block_size : Z) :
  content <> [] -> (Z.of_nat (length content) <= block_size)%Z ->
  (length content + 1 < fuel)%nat ->
  section_samples fuel content block_size = Done (repeat 0 (length content)).
Proof.
  intros Hne HB Hf.
  assert (Hlen : (1 <= length content)%nat)
    by (destruct content; [congruence|simpl; lia]).
  rewrite section_samples_series by lia. f_equal.
  unfold section_series.
  assert (Hbl : ceil_div (Z.of_nat (length content)) block_size = 1%Z).
  { rewrite ceil_div_pos by lia. symmetry.
    apply Z.div_unique with (r := (Z.of_nat (length content) - 1)%Z); lia. }
  rewrite Hbl.
  assert (Hn : block_count (length content) 1 = length content).
  { unfold block_count, n_chunks. change (Z.to_nat 1) with 1%nat.
    rewrite Nat.div_1_r. lia. }
  rewrite Hn. apply map_seq_const.
  assert (Hraw : forall k, block_raw content 1 k = 0).
  { intros [|k]; unfold block_raw.
    - destruct content as [|x t]; [congruence|].
      change (block_start 1 0) with 0%Z. change (block_end 1 0) with 1%Z.
      rewrite py_slice_first. apply (shannon_ent_repeat x 1). lia.
    - rewrite py_slice_empty; [apply shannon_ent_nil| |];
        unfold block_start, block_end; lia. }
  intros k. unfold block_sample, block_prev.
  destruct k as [|k]; rewrite ?Hraw; apply median2_same.
Qed.

Lemma section_small_is_flat_witness :
  section_samples 5 [200; 13; 77]%Z 100 = Done [0; 0; 0].
Proof.
  apply (section_small_is_flat 5 [200; 13; 77]%Z 100).
  - discriminate.
  - simpl. lia.
  - simpl. lia.
Defined.

Lemma slice_ext (l l' : list Z) (a b : nat) :
  length l' = length l ->
  (forall i, (a <= i < b)%nat -> (i < length l)%nat -> nth i l' 0%Z = nth i l 0%Z) ->
  firstn (b - a) (skipn a l') = firstn (b - a) (skipn a l).
Proof.
  intros Hlen Hnth. apply nth_ext with (d := 0%Z) (d' := 0%Z).
  - rewrite !length_firstn, !length_skipn. lia.
  - intros n Hn. rewrite length_firstn, length_skipn in Hn.
    rewrite !nth_firstn. destruct (Nat.ltb_spec n (b - a)); [|reflexivity].
    rewrite !nth_skipn. apply Hnth; lia.
Qed.

(** X16.  The bytes between the blocks never reach the result: for a block
    count [B >= 1], changing a section only at indexes that are positive
    multiples of [block_len = ceil(len/B)] leaves the series
    [section_ent_line] computes for it unchanged. *)
Theorem section_blocks_gaps (fuel : nat) (content content' : list Z)
    (block_size : Z) :
  (1 <= block_size)%Z -> (length content + 1 < fuel)%nat ->
  length content' = length content ->
  let block_len :=
    Z.to_nat (ceil_div (Z.of_nat (length content)) block_size) in
  (forall i, (i < length content)%nat ->
     (forall k, (1 <= k)%nat -> i <> (k * block_len)%nat) ->
     nth i content' 0%Z = nth i content 0%Z) ->
  section_samples fuel content' block_size
  = section_samples fuel content block_size.
Proof.
  intros HB Hf Hlen block_len Hsame.
  rewrite !section_samples_series by (try assumption; rewrite ?Hlen; lia).
  f_equal. unfold section_series. rewrite Hlen.
  pose proof (ceil_div_nonneg (Z.of_nat (length content)) block_size
                ltac:(lia) HB) as Hbl0.
  assert (Hblz : ceil_div (Z.of_nat (length content)) block_size
                 = Z.of_nat block_len) by (unfold block_len; lia).
  rewrite Hblz.
  assert (Hraw : forall k, block_raw content' (Z.of_nat block_len) k
                           = block_raw content (Z.of_nat block_len) k).
  { intros k. rewrite !block_raw_nat. f_equal.
    apply slice_ext; [exact Hlen|].
    intros i Hi Hil. apply Hsame; [exact Hil|].
    intros m Hm ->. destruct k as [|k].
    - pose proof (Nat.mul_le_mono_r 1 m block_len Hm). lia.
    - destruct (Nat.lt_ge_cases (S k) m) as [Hlt|Hge].
      + pose proof (Nat.mul_le_mono_r (S k + 1) m block_len ltac:(lia)). lia.
      + pose proof (Nat.mul_le_mono_r m (S k) block_len Hge). lia. }
  apply map_ext. intros k. unfold block_sample. rewrite Hraw.
  destruct k as [|k]; [reflexivity|]. cbn [block_prev]. now rewrite Hraw.
Qed.

Lemma section_blocks_gaps_witness :
  section_samples 8 [10; 11; 12; 99; 14; 15]%Z 2
  = section_samples 8 [10; 11; 12; 13; 14; 15]%Z 2.
Proof.
  apply (section_blocks_gaps 8 [10; 11; 12; 13; 14; 15]%Z
           [10; 11; 12; 99; 14; 15]%Z 2).
  - lia.
  - simpl. lia.
  - reflexivity.
  - intros i Hi Hk.
    change (Z.to_nat (ceil_div (Z.of_nat (length [10; 11; 12; 13; 14; 15]%Z)) 2))
      with 3%nat in Hk.
    destruct i as [|[|[|[|[|[|i]]]]]]; try reflexivity.
    exfalso. apply (Hk 1%nat); [lia|reflexivity].
Defined.

Lemma section_blocks_diverges (content : list Z) (block_len : Z) (fuel : nat) :
  (1 <= length content)%nat -> (block_len <= 0)%Z ->
  forall i prev_end prev_ent acc,
    (1 <= i)%Z -> (prev_end <= 1)%Z ->
    section_blocks fuel content block_len i prev_end prev_ent acc = None.
Proof.
  intros Hlen Hbl. induction fuel as [|fuel IH];
    intros i prev_end prev_ent acc Hi Hp; [reflexivity|].
  cbn [section_blocks].
  destruct (Z.leb_spec prev_end (Z.of_nat (length content))); [|lia].
  cbv zeta. apply IH; nia.
Qed.

(** X17.  A negative block count is not rejected either: on a non-empty
    section the loop of [section_ent_line] then never leaves (the block
    length is zero or negative, so the block start never passes the content
    length); no budget of iterations makes it return. *)
Theorem section_negative_block_size (fuel : nat) (content : list Z)
    (block_size : Z) :
  content <> [] -> (block_size < 0)%Z ->
  section_samples fuel content block_size = OutOfFuel.
Proof.
  intros Hne HB. unfold section_samples.
  destruct (Z.eqb_spec block_size 0); [lia|].
  rewrite section_blocks_diverges; [reflexivity| | |lia|lia].
  - destruct content; [congruence|simpl; lia].
  - rewrite ceil_div_neg by assumption.
    assert (0 <= Z.of_nat (length content) / - block_size)%Z
      by (apply Z.div_pos; lia).
    lia.
Qed.

Lemma section_negative_block_size_witness :
  section_samples 1000 [1; 2; 3]%Z (-2) = OutOfFuel.
Proof.
  apply section_negative_block_size; [discriminate|lia].
Defined.

Lemma block_raw_range (content : list Z) (block_len : Z) (k : nat) :
  Forall is_byte content -> 0 <= block_raw content block_len k <= 1.
Proof.
  intros Hb. unfold block_raw. apply shannon_ent_byte_bounds.
  apply Forall_forall. intros x Hx. rewrite Forall_forall in Hb.
  apply Hb. now apply py_slice_incl in Hx.
Qed.

(** X18.  For a block count [B >= 1] the series of a section has at least
    one sample and at most [B]; when the section holds bytes, every sample
    lies in [0, 1]. *)
Theorem section_series_range (fuel : nat) (content : list Z) (block_size : Z) :
  (1 <= block_size)%Z -> (length content + 1 < fuel)%nat ->
  exists samples,
    section_samples fuel content block_size = Done samples /\
    (1 <= length samples)%nat /\
    (Z.of_nat (length samples) <= block_size)%Z /\
    (Forall is_byte content -> Forall (fun s => 0 <= s <= 1) samples).
Proof.
  intros HB Hf. exists (section_series content block_size).
  split; [now apply section_samples_series|].
  unfold section_series. rewrite length_map, length_seq.
  split; [unfold block_count; lia|]. split.
  - unfold block_count. destruct (length content) as [|n] eqn:E.
    + rewrite ceil_div_0_l. simpl. lia.
    + destruct (n_chunks_at_most (S n) block_size ltac:(lia) HB) as [H1 H2].
      cbv zeta in H1, H2. lia.
  - intros Hb. apply Forall_forall. intros s Hs. apply in_map_iff in Hs.
    destruct Hs as (k & <- & _). unfold block_sample. rewrite median2_mean.
    pose proof (block_raw_range content
                  (ceil_div (Z.of_nat (length content)) block_size) k Hb) as H1.
    assert (H2 : 0 <= block_prev content
                        (ceil_div (Z.of_nat (length content)) block_size) k <= 1).
    { destruct k as [|k]; [simpl; lra|]. now apply block_raw_range. }
    lra.
Qed.

Lemma section_series_range_witness :
  exists samples,
    section_samples 8 [0; 1; 2; 3; 4; 5]%Z 2 = Done samples /\
    (1 <= length samples)%nat /\
    (Z.of_nat (length samples) <= 2)%Z.
Proof.
  destruct (section_series_range 8 [0; 1; 2; 3; 4; 5]%Z 2)
    as (samples & H1 & H2 & H3 & _).
  - lia.
  - simpl. lia.
  - exists samples. split; [exact H1|]. split; [exact H2|exact H3].
Defined.

(** ** [fix_section_name] *)

Lemma to_uint_nonnil (n : nat) : Nat.to_uint n <> Decimal.Nil.
Proof.
  pose proof (DecimalNat.Unsigned.to_of (Nat.to_uint n)) as H.
  rewrite DecimalNat.Unsigned.of_to in H. rewrite H.
  apply DecimalFacts.unorm_nonnil.
Qed.

Lemma py_str_injective (i j : nat) : py_str i = py_str j -> i = j.
Proof.
  unfold py_str. intros H.
  apply DecimalNat.Unsigned.to_uint_inj.
  pose proof (DecimalString.NilZero.usu (Nat.to_uint i) (to_uint_nonnil i)) as Hi.
  pose proof (DecimalString.NilZero.usu (Nat.to_uint j) (to_uint_nonnil j)) as Hj.
  rewrite H in Hi. rewrite Hi in Hj. now injection Hj.
Qed.

(** A name is missing when it is [None] or the empty string. *)
Definition name_missing (name : option string) : bool :=
  match name with
  | None => true
  | Some s => String.eqb s ""
  end.

Lemma fix_section_name_missing (name : option string) (index : nat) :
  name_missing name = true ->
  fix_section_name name index = ("sect_" ++ py_str index)%string.
Proof.
  destruct name as [s|]; simpl; [|reflexivity]. now intros ->.
Qed.

(** X19.  [fix_section_name] never returns an empty name; a section that has
    a non-empty name keeps it; sections without a name get ["sect_"]
    followed by their index in decimal, so two of them at different indexes
    never share a name. *)
Theorem fix_section_name_spec :
  (forall name index, fix_section_name name index <> ""%string) /\
  (forall s index, s <> ""%string -> fix_section_name (Some s) index = s) /\
  (forall n1 n2 i j,
      name_missing n1 = true -> name_missing n2 = true ->
      fix_section_name n1 i = fix_section_name n2 j -> i = j) /\
  fix_section_name (Some ""%string) 3 = "sect_3"%string.
Proof.
  split; [|split; [|split]].
  - intros [s|] index; simpl; [|discriminate].
    destruct (String.eqb_spec s ""); [discriminate|assumption].
  - intros s index Hs. simpl.
    destruct (String.eqb_spec s ""); [contradiction|reflexivity].
  - intros n1 n2 i j H1 H2 H.
    rewrite (fix_section_name_missing n1 i H1),
            (fix_section_name_missing n2 j H2) in H.
    simpl in H. injection H as H. now apply py_str_injective.
  - reflexivity.
Qed.

Lemma fix_section_name_spec_witness :
  fix_section_name (Some ".text"%string) 0 = ".text"%string /\
  (fix_section_name None 12 = fix_section_name (Some ""%string) 12).
Proof.
  split.
  - apply (proj1 (proj2 fix_section_name_spec)). discriminate.
  - reflexivity.
Defined.

(** ** The seeds of [section_colour] *)

Lemma name_colour_digits (d1 d2 d3 d4 : Z) (rest : list Z) :
  name_colour (d1 :: d2 :: d3 :: d4 :: rest)
  = (983040 + 4096 * d1 + 256 * d2 + 16 * d3 + d4)%Z.
Proof.
  unfold name_colour, int_base16. cbn [firstn fold_left]. lia.
Qed.

Lemma name_colour_range (hexdigest : list Z) :
  Forall (fun d => (0 <= d < 16)%Z) hexdigest ->
  (4 <= length hexdigest)%nat ->
  (983040 <= name_colour hexdigest <= 1048575)%Z.
Proof.
  intros Hd Hlen.
  destruct hexdigest as [|d1 [|d2 [|d3 [|d4 rest]]]]; simpl in Hlen; try lia.
  rewrite Forall_forall in Hd.
  pose proof (Hd d1 (or_introl eq_refl)) as H1.
  pose proof (Hd d2 (or_intror (or_introl eq_refl))) as H2.
  pose proof (Hd d3 (or_intror (or_intror (or_introl eq_refl)))) as H3.
  pose proof (Hd d4 (or_intror (or_intror (or_intror (or_introl eq_refl)))))
    as H4.
  cbv beta in H1, H2, H3, H4.
  rewrite name_colour_digits. lia.
Qed.

(** X20.  Whatever the digest of the label, the seed [section_colour] gives
    to the generator lies between [0xF0000] and [0xFFFFF], and the second
    seed ([seed - 255], used when two colours are asked for) is positive
    too: neither is ever zero or negative.  The seeds depend on the first
    four hexadecimal digits of the digest only. *)
Theorem section_colour_seed_range (hexdigest : list Z) (multi : bool) :
  Forall (fun d => (0 <= d < 16)%Z) hexdigest ->
  (4 <= length hexdigest)%nat ->
  (983040 <= fst (section_colour_seeds hexdigest multi) <= 1048575)%Z /\
  (forall s, snd (section_colour_seeds hexdigest multi) = Some s ->
     s = (fst (section_colour_seeds hexdigest multi) - 255)%Z /\
     (982785 <= s)%Z) /\
  (forall other,
      firstn 4 other = firstn 4 hexdigest ->
      section_colour_seeds other multi = section_colour_seeds hexdigest multi).
Proof.
  intros Hd Hlen.
  pose proof (name_colour_range hexdigest Hd Hlen) as Hr.
  unfold section_colour_seeds. cbv zeta. cbn [fst snd].
  assert (Hsame : forall other, firstn 4 other = firstn 4 hexdigest ->
                                name_colour other = name_colour hexdigest).
  { intros other Ho. unfold name_colour. now rewrite Ho. }
  generalize dependent (name_colour hexdigest). intros seed Hr Hsame.
  split; [exact Hr|]. split.
  - intros s Hs. destruct multi; [|discriminate].
    assert (Hs' : s = (seed - 255)%Z) by congruence.
    split; [exact Hs'|]. rewrite Hs'. lia.
  - intros other Ho. now rewrite (Hsame other Ho).
Qed.

Lemma section_colour_seed_range_witness :
  (983040 <= fst (section_colour_seeds [10; 0; 15; 3; 7; 7]%Z true) <= 1048575)%Z.
Proof.
  apply (section_colour_seed_range [10; 0; 15; 3; 7; 7]%Z true).
  - repeat constructor; lia.
  - simpl. lia.
Defined.

(** ** The histogram rows, entry by entry *)

Lemma combine_map_self {A B : Type} (f : A -> B) (l : list A) :
  combine l (map f l) = map (fun x => (x, f x)) l.
Proof.
  induction l as [|a l IH]; simpl; [reflexivity|]. now rewrite IH.
Qed.

Lemma ordered_row_length (ignore_0 : bool) (file_array : list Z) :
  length (ordered_row ignore_0 file_array)
  = (256 - (if ignore_0 then 1 else 0))%nat.
Proof.
  unfold ordered_row. rewrite length_map, py_range_length.
  destruct ignore_0; reflexivity.
Qed.

Lemma ordered_row_nth (ignore_0 : bool) (file_array : list Z) (x : Z) :
  (int_of_bool ignore_0 <= x < 256)%Z ->
  nth (Z.to_nat (x - int_of_bool ignore_0)) (ordered_row ignore_0 file_array) 0%nat
  = count_occ Z.eq_dec file_array x.
Proof.
  intros Hx. unfold ordered_row, py_range. rewrite map_map.
  set (n := Z.to_nat (256 - int_of_bool ignore_0)).
  set (k := Z.to_nat (x - int_of_bool ignore_0)).
  assert (Hk : (k < n)%nat) by (unfold k, n; lia).
  rewrite (nth_indep _ 0%nat
             (Counter file_array (int_of_bool ignore_0 + Z.of_nat 0)))
    by (now rewrite length_map, length_seq).
  rewrite (map_nth (fun i => Counter file_array (int_of_bool ignore_0 + Z.of_nat i))).
  rewrite seq_nth by assumption. unfold Counter. f_equal. unfold k. lia.
Qed.

(** X21.  The value-indexed row has one entry per byte value from
    [ignore_0] to 255, and the bar drawn at position [x] has the number of
    occurrences of byte [x] as its height; no entry exceeds the input
    length, and an empty input gives a row of zeros. *)
Theorem ordered_row_entries (ignore_0 : bool) (file_array : list Z) :
  length (ordered_row ignore_0 file_array)
  = (256 - (if ignore_0 then 1 else 0))%nat /\
  combine (py_range (int_of_bool ignore_0) 256) (ordered_row ignore_0 file_array)
  = map (fun x => (x, count_occ Z.eq_dec file_array x))
        (py_range (int_of_bool ignore_0) 256) /\
  (forall x, (int_of_bool ignore_0 <= x < 256)%Z ->
     nth (Z.to_nat (x - int_of_bool ignore_0))
         (ordered_row ignore_0 file_array) 0%nat
     = count_occ Z.eq_dec file_array x) /\
  Forall (fun c => (c <= length file_array)%nat) (ordered_row ignore_0 file_array) /\
  ordered_row ignore_0 []
  = repeat 0%nat (256 - (if ignore_0 then 1 else 0)).
Proof.
  split; [apply ordered_row_length|].
  split; [apply combine_map_self|].
  split; [intros x Hx; now apply ordered_row_nth|].
  split.
  - apply Forall_forall. intros c Hc. unfold ordered_row in Hc.
    apply in_map_iff in Hc. destruct Hc as (x & <- & _).
    apply count_occ_bound.
  - unfold ordered_row, py_range. rewrite map_map.
    rewrite (map_seq_const _ 0%nat) by reflexivity.
    destruct ignore_0; reflexivity.
Qed.

Lemma StronglySorted_ge_hd (l : list nat) (c : nat) :
  StronglySorted ge l -> In c l -> (c <= hd 0%nat l)%nat.
Proof.
  intros Hs Hin. destruct l as [|h t]; [contradiction|]. simpl.
  destruct Hin as [->|Hin]; [lia|].
  inversion Hs as [|? ? _ Hall]; subst.
  rewrite Forall_forall in Hall. specialize (Hall c Hin). unfold ge in Hall. lia.
Qed.

(** X22.  The rank-ordered row has as many entries as the value-indexed
    row and the same total; its first entry is the largest count, which some
    byte value attains. *)
Theorem sorted_row_entries (ignore_0 : bool) (file_array : list Z) :
  length (sorted_row ignore_0 file_array)
  = length (ordered_row ignore_0 file_array) /\
  list_sum (sorted_row ignore_0 file_array)
  = list_sum (ordered_row ignore_0 file_array) /\
  (forall c, In c (ordered_row ignore_0 file_array) ->
     (c <= hd 0%nat (sorted_row ignore_0 file_array))%nat) /\
  In (hd 0%nat (sorted_row ignore_0 file_array)) (ordered_row ignore_0 file_array).
Proof.
  pose proof (sorted_row_perm ignore_0 file_array) as HP.
  pose proof (sorted_row_descending ignore_0 file_array) as Hs.
  split; [now apply Permutation_length|].
  split.
  { clear Hs. induction HP; simpl; lia. }
  split.
  - intros c Hc. apply StronglySorted_ge_hd; [exact Hs|].
    apply (Permutation_in c (Permutation_sym HP) Hc).
  - apply (Permutation_in _ HP).
    pose proof (Permutation_length HP) as Hl.
    rewrite ordered_row_length in Hl.
    destruct (sorted_row ignore_0 file_array) as [|h t]; [|now left].
    destruct ignore_0; discriminate.
Qed.

(** ** The subplot grid of [section_byte_occurance_histogram] *)

(** X23.  With [ncols >= 1] columns and at least one section, the grid
    asked of [add_subplot] has [ceil(n / ncols)] rows and section [i] gets
    cell [i + 1], which always lies inside the grid; with [ncols = 0] the
    call raises [ZeroDivisionError], unless there is no section at all. *)
Theorem subplot_positions_in_grid (n_sections : nat) (ncols : Z) :
  (1 <= ncols)%Z ->
  exists cells,
    subplot_positions n_sections ncols = Done cells /\
    length cells = n_sections /\
    (forall i, (i < n_sections)%nat ->
       nth i cells (0, 0, 0)%Z
       = (ceil_div (Z.of_nat n_sections) ncols, ncols, Z.of_nat i + 1)%Z /\
       (1 <= Z.of_nat i + 1
        <= ceil_div (Z.of_nat n_sections) ncols * ncols)%Z) /\
    subplot_positions 0 0 = Done [] /\
    subplot_positions (S n_sections) 0 = ZeroDivisionError.
Proof.
  intros Hc.
  pose proof (ceil_div_mul_bounds (Z.of_nat n_sections) ncols ltac:(lia)) as Hb.
  set (cells := map (fun i => (ceil_div (Z.of_nat n_sections) ncols, ncols,
                               (Z.of_nat i + 1)%Z)) (seq 0 n_sections)).
  exists cells.
  split.
  { unfold subplot_positions. destruct n_sections as [|n]; [reflexivity|].
    destruct (Z.eqb_spec ncols 0); [lia|reflexivity]. }
  split; [unfold cells; now rewrite length_map, length_seq|].
  split; [|split; reflexivity].
  intros i Hi. split; [|lia].
  unfold cells.
  rewrite (nth_indep _ (0, 0, 0)%Z
             (ceil_div (Z.of_nat n_sections) ncols, ncols, (Z.of_nat 0 + 1)%Z))
    by (now rewrite length_map, length_seq).
  rewrite (map_nth (fun i => (ceil_div (Z.of_nat n_sections) ncols, ncols,
                              (Z.of_nat i + 1)%Z))).
  now rewrite seq_nth.
Qed.

Lemma subplot_positions_in_grid_witness :
  exists cells,
    subplot_positions 5 2 = Done cells /\ length cells = 5%nat.
Proof.
  destruct (subplot_positions_in_grid 5 2 ltac:(lia)) as (cells & H1 & H2 & _).
  exists cells. split; [exact H1|exact H2].
Defined.
